(** * FontCompress: a shallow embedding of [FontCompress.py]

    The program scans a directory for HTML and script files, collects the
    characters they display, and asks fontTools to subset a font to those
    characters.  This development embeds the program's own code: the
    regular-expression extractors, the directory scan, the subsetting
    pipeline and the command-line entry point.  fontTools itself is an
    interface ([FontTools]) the pipeline is written against. *)

From Stdlib Require Import ZArith Lia Strings.String Strings.Ascii Strings.Byte.
From stdpp Require Import base option list gmap sets strings.

Local Open Scope Z_scope.

(** ** Python strings

    A Python [str] is a sequence of Unicode code points; a character is a
    [str] of length one, and [ord] gives its code point. *)

Abbreviation str := (list Z).
Abbreviation bytes := (list byte).

Definition byte_val (b : byte) : Z := Z.of_N (Byte.to_N b).

Definition is_cont (b : Z) : bool := (0x80 <=? b) && (b <=? 0xBF).

(** The strict [utf-8] codec of [bytes.decode]: shortest form only, no
    surrogates, nothing above U+10FFFF. *)
Fixpoint utf8_decode (bs : bytes) : option str :=
  match bs with
  | [] => Some []
  | x0 :: r0 =>
    let b0 := byte_val x0 in
    if b0 <? 0x80 then cons b0 <$> utf8_decode r0
    else if (0xC2 <=? b0) && (b0 <=? 0xDF) then
      match r0 with
      | x1 :: r1 =>
        let b1 := byte_val x1 in
        if is_cont b1
        then cons ((b0 - 0xC0) * 64 + (b1 - 0x80)) <$> utf8_decode r1
        else None
      | _ => None
      end
    else if (0xE0 <=? b0) && (b0 <=? 0xEF) then
      match r0 with
      | x1 :: x2 :: r2 =>
        let b1 := byte_val x1 in
        let b2 := byte_val x2 in
        let c := (b0 - 0xE0) * 4096 + (b1 - 0x80) * 64 + (b2 - 0x80) in
        if is_cont b1 && is_cont b2 && (0x800 <=? c)
           && negb ((0xD800 <=? c) && (c <=? 0xDFFF))
        then cons c <$> utf8_decode r2
        else None
      | _ => None
      end
    else if (0xF0 <=? b0) && (b0 <=? 0xF4) then
      match r0 with
      | x1 :: x2 :: x3 :: r3 =>
        let b1 := byte_val x1 in
        let b2 := byte_val x2 in
        let b3 := byte_val x3 in
        let c := (b0 - 0xF0) * 262144 + (b1 - 0x80) * 4096
                 + (b2 - 0x80) * 64 + (b3 - 0x80) in
        if is_cont b1 && is_cont b2 && is_cont b3
           && (0x10000 <=? c) && (c <=? 0x10FFFF)
        then cons c <$> utf8_decode r3
        else None
      | _ => None
      end
    else None
  end.

(** A source-code literal: the file is UTF-8, so is the Rocq string. *)
Definition u (s : string) : str :=
  default [] (utf8_decode (list_byte_of_string s)).

Definition chr (a : ascii) : Z := Z.of_N (N_of_ascii a).

(** [set(text)]: the set of the one-character strings of [text]. *)
Definition set_of_str (text : str) : gset str :=
  list_to_set ((λ c, [c]) <$> text).

(** [chars.update(match)] *)
Definition set_update (chars : gset str) (text : str) : gset str :=
  chars ∪ set_of_str text.

(** ** The [re] module, as far as the program uses it

    Every quantifier in the program's patterns is applied to a single
    character or character set, so [RRepeat] repeats a [charset]. *)

Record flags := { IGNORECASE : bool; DOTALL : bool }.

Definition NOFLAG : flags := {| IGNORECASE := false; DOTALL := false |}.
Definition re_IGNORECASE : flags := {| IGNORECASE := true; DOTALL := false |}.
Definition re_DOTALL : flags := {| IGNORECASE := false; DOTALL := true |}.

Inductive set_item :=
| IChar (c : Z)          (* a character listed in the brackets *)
| ISpace                 (* \s *)
| INotSpace.             (* \S *)

Inductive charset :=
| Dot                                          (* . *)
| InSet (negate : bool) (items : list set_item). (* [...] and [^...] *)

Inductive regex :=
| REmp
| RLit (c : Z)
| RSet (cs : charset)
| RCat (r1 r2 : regex)
| RAlt (r1 r2 : regex)
| RGroup (n : nat) (r : regex)
| RRepeat (min : nat) (greedy : bool) (cs : charset).

(** [str.isspace] for one character, which is what [\s] tests on [str]. *)
Definition is_space (c : Z) : bool :=
  ((0x09 <=? c) && (c <=? 0x0D)) || ((0x1C <=? c) && (c <=? 0x20))
  || (c =? 0x85) || (c =? 0xA0) || (c =? 0x1680)
  || ((0x2000 <=? c) && (c <=? 0x200A))
  || (c =? 0x2028) || (c =? 0x2029) || (c =? 0x202F) || (c =? 0x205F)
  || (c =? 0x3000).

Definition is_ascii_lower (c : Z) : bool := (0x61 <=? c) && (c <=? 0x7A).

(** Case-insensitive comparison of a text character [x] with an ASCII
    pattern character [p]: [x] lower-cases to [p], or is one of the two
    extra equivalents the [re] compiler adds (dotless i, long s).  The
    patterns of this program hold lower-case ASCII letters only. *)
Definition ci_match (p x : Z) : bool :=
  (x =? p)
  || (is_ascii_lower p && (x =? p - 32))
  || ((p =? 0x69) && ((x =? 0x130) || (x =? 0x131)))
  || ((p =? 0x73) && (x =? 0x17F))
  || ((p =? 0x6B) && (x =? 0x212A)).

Definition lit_match (fl : flags) (p x : Z) : bool :=
  if IGNORECASE fl then ci_match p x else x =? p.

Definition item_match (fl : flags) (it : set_item) (x : Z) : bool :=
  match it with
  | IChar c => lit_match fl c x
  | ISpace => is_space x
  | INotSpace => negb (is_space x)
  end.

Definition cs_match (fl : flags) (cs : charset) (x : Z) : bool :=
  match cs with
  | Dot => DOTALL fl || negb (x =? 0x0A)
  | InSet negate items => xorb negate (existsb (λ it, item_match fl it x) items)
  end.

Definition captures := list (nat * str).

Definition set_group (n : nat) (text : str) (caps : captures) : captures :=
  (n, text) :: caps.

(** [m.group(n)], with [''] for a group that took no part. *)
Fixpoint group (n : nat) (caps : captures) : str :=
  match caps with
  | [] => []
  | (i, text) :: caps' => if Nat.eqb i n then text else group n caps'
  end.

Section Matcher.
Variable fl : flags.
Context {R : Type}.

(** [x*?] and [x+?]: hand over to the rest of the pattern as early as
    the minimum allows, take one more character only when that fails. *)
Fixpoint rep_lazy (cs : charset) (s : str) (min : nat)
    (k : str → option R) {struct s} : option R :=
  let more :=
    match s with
    | c :: s' => if cs_match fl cs c then rep_lazy cs s' (Nat.pred min) k else None
    | [] => None
    end in
  match min with
  | O => match k s with Some r => Some r | None => more end
  | S _ => more
  end.

(** [x*] and [x+]: take as many characters as possible, give them back
    one at a time. *)
Fixpoint rep_greedy (cs : charset) (s : str) (min : nat)
    (k : str → option R) {struct s} : option R :=
  let stop := match min with O => k s | S _ => None end in
  match s with
  | c :: s' =>
    if cs_match fl cs c then
      match rep_greedy cs s' (Nat.pred min) k with
      | Some r => Some r
      | None => stop
      end
    else stop
  | [] => stop
  end.

(** Backtracking matcher in continuation-passing style: alternatives are
    tried in priority order and the first complete match wins. *)
Fixpoint rmatch (r : regex) (s : str) (caps : captures)
    (k : str → captures → option R) {struct r} : option R :=
  match r with
  | REmp => k s caps
  | RLit c =>
    match s with
    | x :: s' => if lit_match fl c x then k s' caps else None
    | [] => None
    end
  | RSet cs =>
    match s with
    | x :: s' => if cs_match fl cs x then k s' caps else None
    | [] => None
    end
  | RCat r1 r2 => rmatch r1 s caps (λ s1 caps1, rmatch r2 s1 caps1 k)
  | RAlt r1 r2 =>
    match rmatch r1 s caps k with
    | Some x => Some x
    | None => rmatch r2 s caps k
    end
  | RGroup n r1 =>
    rmatch r1 s caps (λ s1 caps1,
      k s1 (set_group n (take (length s - length s1) s) caps1))
  | RRepeat min greedy cs =>
    (if greedy then rep_greedy else rep_lazy) cs s min (λ s1, k s1 caps)
  end.
End Matcher.

(** A match anchored at the head of [s]: the unmatched rest and the groups. *)
Definition match_at (fl : flags) (r : regex) (s : str) : option (str * captures) :=
  rmatch fl r s [] (λ s1 caps, Some (s1, caps)).

(** Non-overlapping matches, left to right.  [skip] counts the characters
    of the current match still to be passed over.  No pattern of the
    program matches the empty string ([program_patterns_consume] and
    [match_at_consumes] below), so a match always advances. *)
Fixpoint finditer_from (fl : flags) (r : regex) (skip : nat) (s : str)
    : list captures :=
  match s with
  | [] => []
  | _ :: s' =>
    match skip with
    | S n => finditer_from fl r n s'
    | O =>
      match match_at fl r s with
      | Some (rest, caps) =>
        caps :: finditer_from fl r (Nat.pred (length s - length rest)) s'
      | None => finditer_from fl r O s'
      end
    end
  end.

(** [re.findall] for a pattern with one group, and with two. *)
Definition re_findall1 (r : regex) (s : str) (fl : flags) : list str :=
  group 1 <$> finditer_from fl r O s.

Definition re_findall2 (r : regex) (s : str) (fl : flags) : list (str * str) :=
  (λ caps, (group 1 caps, group 2 caps)) <$> finditer_from fl r O s.

(** [re.sub(pattern, repl, string)] for a [repl] without group
    references and, as above, a pattern that never matches the empty
    string. *)
Fixpoint sub_from (fl : flags) (r : regex) (repl : str) (skip : nat) (s : str)
    : str :=
  match s with
  | [] => []
  | c :: s' =>
    match skip with
    | S n => sub_from fl r repl n s'
    | O =>
      match match_at fl r s with
      | Some (rest, _) =>
        repl ++ sub_from fl r repl (Nat.pred (length s - length rest)) s'
      | None => c :: sub_from fl r repl O s'
      end
    end
  end.

Definition re_sub (r : regex) (repl : str) (s : str) (fl : flags) : str :=
  sub_from fl r repl O s.

(** Pattern-building helpers. *)
Definition lits (s : string) : regex :=
  foldr (λ a r, RCat (RLit (chr a)) r) REmp (list_ascii_of_string s).

Definition rseq (rs : list regex) : regex := foldr RCat REmp rs.

Fixpoint ralt (rs : list regex) : regex :=
  match rs with
  | [] => REmp
  | [r] => r
  | r :: rs' => RAlt r (ralt rs')
  end.

Definition one_of (s : string) : charset :=
  InSet false (IChar ∘ chr <$> list_ascii_of_string s).
Definition none_of (s : string) : charset :=
  InSet true (IChar ∘ chr <$> list_ascii_of_string s).
(** Either quote character, and anything but a quote character. *)
Definition quote : charset := InSet false [IChar 34; IChar 39].
Definition not_quote : charset := InSet true [IChar 34; IChar 39].
Definition space : charset := InSet false [ISpace].                  (* \s *)
Definition anything : charset := InSet false [ISpace; INotSpace].    (* [\s\S] *)

(** Two syntactic approximations used to rule matches out: whether a
    pattern can hand over without consuming anything, and whether a match
    can begin with the character [x]. *)
Fixpoint nullable (r : regex) : bool :=
  match r with
  | REmp => true
  | RLit _ | RSet _ => false
  | RCat r1 r2 => nullable r1 && nullable r2
  | RAlt r1 r2 => nullable r1 || nullable r2
  | RGroup _ r1 => nullable r1
  | RRepeat min _ _ => Nat.eqb min 0
  end.

Fixpoint can_start (fl : flags) (r : regex) (x : Z) : bool :=
  match r with
  | REmp => false
  | RLit c => lit_match fl c x
  | RSet cs => cs_match fl cs x
  | RCat r1 r2 => can_start fl r1 x || (nullable r1 && can_start fl r2 x)
  | RAlt r1 r2 => can_start fl r1 x || can_start fl r2 x
  | RGroup _ r1 => can_start fl r1 x
  | RRepeat _ _ cs => cs_match fl cs x
  end.

(** ** The program's patterns *)

(** [<(script|style|noscript|meta)[^>]*?>[\s\S]*?<\/\\1>] as the raw
    string literal spells it: after [<\/] comes an escaped backslash and
    the digit 1, so the pattern ends in the five literal characters
    [<], [/], [\], [1], [>]. *)
Definition pat_nonrendering : regex :=
  rseq [ lits "<";
         RGroup 1 (ralt [lits "script"; lits "style"; lits "noscript"; lits "meta"]);
         RRepeat 0 false (none_of ">");
         lits ">";
         RRepeat 0 false anything;
         lits "</\1>" ].

(** [<[^>]+>] *)
Definition pat_tag : regex :=
  rseq [ lits "<"; RRepeat 1 true (none_of ">"); lits ">" ].

(** [(alt|title|placeholder|aria-label|data-content)\s*=\s*Q([^Q]+)Q]
    where Q is the set of the two quote characters. *)
Definition pat_attr : regex :=
  rseq [ RGroup 1 (ralt [lits "alt"; lits "title"; lits "placeholder";
                         lits "aria-label"; lits "data-content"]);
         RRepeat 0 true space; lits "="; RRepeat 0 true space;
         RSet quote;
         RGroup 2 (RRepeat 1 true not_quote);
         RSet quote ].

(** [style\s*=\s*Q[^Q]*content:\s*Q(.*?)Q] *)
Definition pat_style_content : regex :=
  rseq [ lits "style"; RRepeat 0 true space; lits "="; RRepeat 0 true space;
         RSet quote; RRepeat 0 true not_quote; lits "content:";
         RRepeat 0 true space; RSet quote;
         RGroup 1 (RRepeat 0 false Dot);
         RSet quote ].

(** A string delimited by the character [q]: [q(.*?)q]. *)
Definition pat_string (q : Z) : regex :=
  rseq [ RLit q; RGroup 1 (RRepeat 0 false Dot); RLit q ].

Definition double_quote : Z := 34.
Definition single_quote : Z := 39.
Definition backtick : Z := 96.

(** [\${.*?}] *)
Definition pat_template_expr : regex :=
  rseq [ lits "${"; RRepeat 0 false Dot; lits "}" ].

(** [[>}]\t*([^<{]+?)\t*[<{]] *)
Definition pat_jsx_text : regex :=
  rseq [ RSet (one_of ">}"); RRepeat 0 true (InSet false [IChar 9]);
         RGroup 1 (RRepeat 1 false (none_of "<{"));
         RRepeat 0 true (InSet false [IChar 9]);
         RSet (one_of "<{") ].

(** [console\.(log|warn|error|info)\(([^)]+)\)] *)
Definition pat_console : regex :=
  rseq [ lits "console."; 
         RGroup 1 (ralt [lits "log"; lits "warn"; lits "error"; lits "info"]);
         lits "(";
         RGroup 2 (RRepeat 1 true (none_of ")"));
         lits ")" ].

(** ** Text extraction, after the file has been read *)

(** The body of [extract_chars_from_html] from the [re.sub] on. *)
Definition html_chars (html : str) : gset str :=
  let html := re_sub pat_nonrendering [] html re_IGNORECASE in
  let text := re_sub pat_tag [] html NOFLAG in
  let attrs := re_findall2 pat_attr html re_IGNORECASE in
  let text := foldl (λ text a, text ++ u " " ++ a.2) text attrs in
  let style_contents := re_findall1 pat_style_content html re_IGNORECASE in
  let text := text ++ concat style_contents in
  set_of_str text.

(** The loop over [string_patterns]; the third pattern strips the
    embedded expressions from each match before adding it. *)
Definition js_string_chars (js_content : str) (chars : gset str) : gset str :=
  let chars := foldl set_update chars
                 (re_findall1 (pat_string double_quote) js_content re_DOTALL) in
  let chars := foldl set_update chars
                 (re_findall1 (pat_string single_quote) js_content re_DOTALL) in
  foldl (λ chars mtch, set_update chars (re_sub pat_template_expr [] mtch NOFLAG))
        chars (re_findall1 (pat_string backtick) js_content re_DOTALL).

(** The body of [extract_chars_from_js] after [read_text]. *)
Definition js_chars (js_content : str) : gset str :=
  let chars := js_string_chars js_content ∅ in
  let jsx_matches := re_findall1 pat_jsx_text js_content NOFLAG in
  let chars := foldl set_update chars jsx_matches in
  let log_matches := re_findall2 pat_console js_content NOFLAG in
  foldl (λ chars lm,
           let arg_strings1 := re_findall1 (pat_string double_quote) lm.2 NOFLAG in
           let arg_strings2 := re_findall1 (pat_string single_quote) lm.2 NOFLAG in
           foldl set_update chars (arg_strings1 ++ arg_strings2))
        chars log_matches.

(** What each pass of [extract_chars_from_js] adds: the strings between
    two quotes of the kind [q], the template literals, the JSX text, and
    the strings in the arguments of logging calls. *)
Definition quoted_chars (q : Z) (js_content : str) : gset str :=
  foldl set_update ∅ (re_findall1 (pat_string q) js_content re_DOTALL).

Definition template_chars (js_content : str) : gset str :=
  foldl (λ chars mtch, set_update chars (re_sub pat_template_expr [] mtch NOFLAG))
        ∅ (re_findall1 (pat_string backtick) js_content re_DOTALL).

Definition jsx_chars (js_content : str) : gset str :=
  foldl set_update ∅ (re_findall1 pat_jsx_text js_content NOFLAG).

Definition console_chars (js_content : str) : gset str :=
  foldl (λ chars lm,
           let arg_strings1 := re_findall1 (pat_string double_quote) lm.2 NOFLAG in
           let arg_strings2 := re_findall1 (pat_string single_quote) lm.2 NOFLAG in
           foldl set_update chars (arg_strings1 ++ arg_strings2))
        ∅ (re_findall2 pat_console js_content NOFLAG).

(** What stands between the backticks of a template literal: text, then
    any number of embedded expressions, each followed by text; and the
    text alone. *)
Definition template_body (text : str) (more : list (str * str)) : str :=
  text ++ concat ((λ p, u "${" ++ p.1 ++ u "}" ++ p.2) <$> more).

Definition template_text (text : str) (more : list (str * str)) : str :=
  text ++ concat (snd <$> more).

(** Whether a text holds the two characters that open an embedded
    expression, one after the other. *)
Fixpoint opens_expr (s : str) : bool :=
  match s with
  | [] => false
  | c :: s' =>
    ((c =? 36) && match s' with d :: _ => d =? 123 | [] => false end)
    || opens_expr s'
  end.

(** ** Exceptions, fontTools, and the world the program runs in *)

Inductive exn :=
| OSError (path : str)        (* the file could not be opened or read *)
| UnicodeDecodeError          (* the file is not valid UTF-8 *)
| TypeError                   (* [ord] of something that is not one character *)
| ZeroDivisionError
| TTLibError (code : nat).    (* any exception raised inside fontTools *)

(** [fontTools.subset.Options]: the four attributes the program assigns,
    and all the others, which it leaves as [Options()] made them. *)
Record Options (Other : Type) := mkOptions {
  desubroutinize : bool;
  hinting : bool;
  legacy_cmap : bool;
  symbol_cmap : bool;
  other_options : Other;
}.
Arguments mkOptions {Other}.
Arguments desubroutinize {Other}.
Arguments hinting {Other}.
Arguments legacy_cmap {Other}.
Arguments symbol_cmap {Other}.
Arguments other_options {Other}.

Definition set_desubroutinize {O} (b : bool) (o : Options O) : Options O :=
  mkOptions b (hinting o) (legacy_cmap o) (symbol_cmap o) (other_options o).
Definition set_hinting {O} (b : bool) (o : Options O) : Options O :=
  mkOptions (desubroutinize o) b (legacy_cmap o) (symbol_cmap o) (other_options o).
Definition set_legacy_cmap {O} (b : bool) (o : Options O) : Options O :=
  mkOptions (desubroutinize o) (hinting o) b (symbol_cmap o) (other_options o).
Definition set_symbol_cmap {O} (b : bool) (o : Options O) : Options O :=
  mkOptions (desubroutinize o) (hinting o) (legacy_cmap o) b (other_options o).

(** The part of fontTools the program calls.  A [Font] is the state of a
    [TTFont] object.  [Subsetter.subset] and [save_font] work on the object
    they are given and return nothing, so each yields the object's next
    state, together with the exception if it raised; [save_font] also
    yields the file system it leaves behind. *)
Class FontTools := {
  Font : Type;
  OtherOptions : Type;
  Options_new : Options OtherOptions;
  TTFont : gmap str bytes → str → exn + Font;
  Subsetter_subset : Options OtherOptions → gset Z → Font → Font * option exn;
  save_font : Font → str → Options OtherOptions → gmap str bytes
              → Font * gmap str bytes * option exn;
  TTFont_close : Font → Font;
}.

(** A directory entry as the scan meets it: its path, and what
    [file_path.is_file()] does for it.  [is_file] answers [False] for a
    path that is not there, and raises the [OSError] of any other failed
    [stat]: for a file in a directory that may be listed but not
    searched, say. *)
Record DirEntry := { entry_path : str; entry_is_file : exn + bool }.

(** The entries a loop over [entries] gets through when it stops at the
    first one whose [is_file()] raises, and that exception. *)
Fixpoint reached (entries : list DirEntry) : list DirEntry * option exn :=
  match entries with
  | [] => ([], None)
  | e :: entries' =>
    match entry_is_file e with
    | inl err => ([], Some err)
    | inr _ => let r := reached entries' in (e :: r.1, r.2)
    end
  end.

(** The exception that ends a loop over what an iterator yields, if one
    does: that of the first [is_file()] that raises, or else the one the
    iterator itself raises after its last entry. *)
Definition scan_abort (it : list DirEntry * option exn) : option exn :=
  match (reached it.1).2 with
  | Some err => Some err
  | None => it.2
  end.

Inductive level := INFO | WARNING.

Inductive message :=
| MsgFileError (file_path : str) (e : exn)
| MsgProcessed (file_count : nat)
| MsgSkipChar (char : str) (e : exn)
| MsgCollecting
| MsgFound (n : nat)
| MsgCreating
| MsgDone (orig_kb new_kb : Z)
| MsgReduced (orig_size new_size : Z).

Section Program.
Context `{FT : FontTools}.

(** A call into fontTools, with the address of the font object it is
    given. *)
Inductive call :=
| CallTTFont (font_path : str)
| CallSubset (options : Options OtherOptions) (unicodes : gset Z) (font : nat)
| CallSaveFont (font : nat) (output_path : str) (options : Options OtherOptions)
| CallClose (font : nat).

Record World := mkWorld {
  files : gmap str bytes;            (* regular files, by path *)
  rglob : str → list DirEntry * option exn;
                                     (* what iterating [Path(d).rglob('*')]
                                        yields, and the exception that ends
                                        the iteration, if one does *)
  fonts : gmap nat Font;             (* the TTFont objects, by address *)
  log : list (level * message);      (* oldest first *)
  calls : list call;                 (* oldest first *)
}.

Definition with_files (fs : gmap str bytes) (w : World) : World :=
  mkWorld fs (rglob w) (fonts w) (log w) (calls w).
Definition with_fonts (h : gmap nat Font) (w : World) : World :=
  mkWorld (files w) (rglob w) h (log w) (calls w).
Definition add_log (l : level) (msg : message) (w : World) : World :=
  mkWorld (files w) (rglob w) (fonts w) (log w ++ [(l, msg)]) (calls w).
Definition add_logs (l : list (level * message)) (w : World) : World :=
  mkWorld (files w) (rglob w) (fonts w) (log w ++ l) (calls w).
Definition add_call (c : call) (w : World) : World :=
  mkWorld (files w) (rglob w) (fonts w) (log w) (calls w ++ [c]).

(** State and exceptions. *)
Definition M (A : Type) : Type := World → World * (exn + A).

Definition ret {A} (x : A) : M A := λ w, (w, inr x).
Definition raise {A} (e : exn) : M A := λ w, (w, inl e).
Definition bind {A B} (m : M A) (f : A → M B) : M B :=
  λ w, match m w with
       | (w', inr x) => f x w'
       | (w', inl e) => (w', inl e)
       end.
Definition try_except {A} (m : M A) (handler : exn → M A) : M A :=
  λ w, match m w with
       | (w', inr x) => (w', inr x)
       | (w', inl e) => handler e w'
       end.

#[export] Instance M_ret : MRet M := @ret.
#[export] Instance M_bind : MBind M := λ A B f m, bind m f.

Fixpoint for_each {A S} (body : S → A → M S) (st : S) (xs : list A) : M S :=
  match xs with
  | [] => ret st
  | x :: xs' => st' ← body st x; for_each body st' xs'
  end.

(** [for x in it: body] for a generator [it]: the loop runs over what the
    generator yields, and the exception the generator raises instead of
    its next entry, if it raises one, leaves the loop. *)
Definition for_each_yielded {A S} (body : S → A → M S) (st : S)
    (it : list A * option exn) : M S :=
  st' ← for_each body st it.1;
  match it.2 with
  | Some e => raise e
  | None => ret st'
  end.

Definition logging (l : level) (msg : message) : M unit :=
  λ w, (add_log l msg w, inr tt).

(** Text mode with [newline=None]: [\r\n] and a lone [\r] read as [\n]. *)
Fixpoint universal_newlines (s : str) : str :=
  match s with
  | [] => []
  | c :: s' =>
    if c =? 13 then
      10 :: match s' with
            | d :: s'' => if d =? 10 then universal_newlines s''
                          else universal_newlines s'
            | [] => []
            end
    else c :: universal_newlines s'
  end.

(** [file_path.read_text(encoding='utf-8')]: what it returns or raises
    depends on the files only. *)
Definition read_decode (fs : gmap str bytes) (file_path : str) : exn + str :=
  match fs !! file_path with
  | None => inl (OSError file_path)
  | Some bs =>
    match utf8_decode bs with
    | None => inl UnicodeDecodeError
    | Some s => inr (universal_newlines s)
    end
  end.

Definition read_text (file_path : str) : M str :=
  λ w, (w, read_decode (files w) file_path).

Definition extract_chars_from_html (file_path : str) : M (gset str) :=
  html ← read_text file_path; ret (html_chars html).

Definition extract_chars_from_js (file_path : str) : M (gset str) :=
  js_content ← read_text file_path; ret (js_chars js_content).

(** [Path.name], [Path.suffix] and [str.lower], for a path as [rglob]
    yields it: components separated by [/], none after the last.  Only
    ASCII letters are lower-cased: no other character lower-cases to a
    letter of the extensions the scan compares with. *)
Definition path_name (p : str) : str :=
  foldl (λ acc c, if c =? 47 then [] else acc ++ [c]) [] p.

Fixpoint rfind_dot (name : str) : option nat :=
  match name with
  | [] => None
  | c :: r =>
    match rfind_dot r with
    | Some i => Some (S i)
    | None => if c =? 46 then Some O else None
    end
  end.

Definition path_suffix (p : str) : str :=
  let name := path_name p in
  match rfind_dot name with
  | Some i => if (0 <? i)%nat && (i <? length name - 1)%nat then drop i name else []
  | None => []
  end.

Definition lower (s : str) : str :=
  (λ c, if (0x41 <=? c) && (c <=? 0x5A) then c + 32 else c) <$> s.

Definition script_exts : list str :=
  [u ".js"; u ".jsx"; u ".ts"; u ".tsx"; u ".json"].

(** [file_path.is_file()] *)
Definition is_file (e : DirEntry) : M bool := λ w, (w, entry_is_file e).

(** One turn of the loop of [collect_chars_from_directory]; the loop's
    variables are [all_chars] and [file_count].  The call of [is_file] is
    outside the [try]. *)
Definition scan_entry (st : gset str * nat) (e : DirEntry) : M (gset str * nat) :=
  let file_path := entry_path e in
  is_a_file ← is_file e;
  if (is_a_file : bool) then
    let ext := lower (path_suffix file_path) in
    try_except
      (if decide (ext = u ".html") then
         chars ← extract_chars_from_html file_path;
         ret (st.1 ∪ chars, S st.2)
       else if decide (ext ∈ script_exts) then
         chars ← extract_chars_from_js file_path;
         ret (st.1 ∪ chars, S st.2)
       else ret st)
      (λ e, logging WARNING (MsgFileError file_path e);; ret st)
  else ret st.

Definition collect_chars_from_directory (directory : str) : M (gset str) :=
  it ← (λ w, (w, inr (rglob w directory)));
  st ← for_each_yielded scan_entry (∅, O) it;
  logging INFO (MsgProcessed st.2);;
  ret st.1.

(** The extraction the scan runs on a directory entry, if it runs one,
    and what comes of it in a world: the characters the entry adds, the
    warning it causes, and whether it counts as processed. *)
Definition extraction (e : DirEntry) : option (M (gset str)) :=
  match entry_is_file e with
  | inr true =>
    let ext := lower (path_suffix (entry_path e)) in
    if decide (ext = u ".html") then Some (extract_chars_from_html (entry_path e))
    else if decide (ext ∈ script_exts) then Some (extract_chars_from_js (entry_path e))
    else None
  | _ => None
  end.

Definition outcome (w : World) (e : DirEntry) : option (exn + gset str) :=
  (λ m : M (gset str), (m w).2) <$> extraction e.

Definition chars_of (w : World) (e : DirEntry) : gset str :=
  match outcome w e with
  | Some (inr chars) => chars
  | _ => ∅
  end.

Definition warning_of (w : World) (e : DirEntry) : list (level * message) :=
  match outcome w e with
  | Some (inl err) => [(WARNING, MsgFileError (entry_path e) err)]
  | _ => []
  end.

Definition counted (w : World) (e : DirEntry) : nat :=
  match outcome w e with
  | Some (inr _) => 1
  | _ => 0
  end.

(** [ord(char)]: the code point of a one-character string. *)
Definition ord (char : str) : M Z :=
  match char with
  | [c] => ret c
  | _ => raise TypeError
  end.

(** [TTFont(font_path)] makes a new object. *)
Definition new_TTFont (font_path : str) : M nat :=
  λ w, let w := add_call (CallTTFont font_path) w in
       match TTFont (files w) font_path with
       | inl e => (w, inl e)
       | inr f =>
         let a := fresh (dom (fonts w)) in
         (with_fonts (<[a := f]> (fonts w)) w, inr a)
       end.

(** [Subsetter(options).populate(unicodes)] then [subsetter.subset(font)]:
    the object at [font] is updated where it is. *)
Definition subsetter_subset (options : Options OtherOptions)
    (unicodes : gset Z) (font : nat) : M unit :=
  λ w, let w := add_call (CallSubset options unicodes font) w in
       match fonts w !! font with
       | None => (w, inl (TTLibError 0))
       | Some f =>
         let '(f', r) := Subsetter_subset options unicodes f in
         let w' := with_fonts (<[font := f']> (fonts w)) w in
         (w', match r with Some e => inl e | None => inr tt end)
       end.

Definition call_save_font (font : nat) (output_path : str)
    (options : Options OtherOptions) : M unit :=
  λ w, let w := add_call (CallSaveFont font output_path options) w in
       match fonts w !! font with
       | None => (w, inl (TTLibError 0))
       | Some f =>
         let '(f', fs', r) := save_font f output_path options (files w) in
         let w' := with_files fs' (with_fonts (<[font := f']> (fonts w)) w) in
         (w', match r with Some e => inl e | None => inr tt end)
       end.

Definition font_close (font : nat) : M unit :=
  λ w, let w := add_call (CallClose font) w in
       (with_fonts (alter TTFont_close font (fonts w)) w, inr tt).

(** The loop that fills [unicode_set]. *)
Definition add_ord (unicode_set : gset Z) (char : str) : M (gset Z) :=
  try_except
    (n ← ord char; ret (unicode_set ∪ {[n]}))
    (λ e, logging WARNING (MsgSkipChar char e);; ret unicode_set).

Definition basic_chars : gset Z := {[ 32; 10; 9; 13 ]}.

(** What one element of [char_set] adds to [unicode_set], and the
    warning it causes when it is not one character. *)
Definition code_point (char : str) : gset Z :=
  match char with
  | [c] => {[ c ]}
  | _ => ∅
  end.

Definition skip_warning (char : str) : list (level * message) :=
  match char with
  | [c] => []
  | _ => [(WARNING, MsgSkipChar char TypeError)]
  end.

(** The set handed to the subsetter for a given [char_set]. *)
Definition unicode_set_of (char_set : gset str) : gset Z :=
  ⋃ (code_point <$> elements char_set) ∪ basic_chars.

Definition fixed_options : Options OtherOptions :=
  let options := Options_new in
  let options := set_desubroutinize true options in
  let options := set_hinting false options in
  let options := set_legacy_cmap false options in
  set_symbol_cmap false options.

Definition create_font_subset (font_path output_path : str)
    (char_set : gset str) : M unit :=
  font ← new_TTFont font_path;
  let options := fixed_options in
  unicode_set ← for_each add_ord ∅ (elements char_set);
  let unicode_set := unicode_set ∪ basic_chars in
  (if decide (unicode_set = ∅) then ret tt
   else subsetter_subset options unicode_set font);;
  call_save_font font output_path options;;
  font_close font.

(** The options a call into fontTools carries. *)
Definition call_options (c : call) : option (Options OtherOptions) :=
  match c with
  | CallSubset options _ _ => Some options
  | CallSaveFont _ _ options => Some options
  | _ => None
  end.

(** ** The command line *)

Record Args := mkArgs {
  arg_directory : str;
  arg_font : str;
  arg_output : str;
  arg_keep : str;
}.

Definition default_output : str := u "Output.ttf".
Definition default_keep : str := u "英文的所有字母和阿拉伯数字以及常用符号".

(** [parser.parse_args()]: the two required arguments, and the two
    optional ones with their defaults. *)
Definition parse_args (d f : str) (o k : option str) : Args :=
  mkArgs d f (default default_output o) (default default_keep k).

(** From the [string] module. *)
Definition digits : str := u "0123456789".
Definition ascii_letters : str :=
  u "abcdefghijklmnopqrstuvwxyzABCDEFGHIJKLMNOPQRSTUVWXYZ".
Definition punctuation : str :=
  u "!" ++ [34] ++ u "#$%&'()*+,-./:;<=>?@[\]^_`{|}~".

(** What [main] adds to the collected characters. *)
Definition add_kept_chars (char_set : gset str) (keep : str) : gset str :=
  let char_set := set_update char_set (digits ++ ascii_letters ++ punctuation) in
  if decide (keep = []) then char_set else set_update char_set keep.

(** [Path(p).stat().st_size] *)
Definition stat_size (p : str) : M Z :=
  λ w, match files w !! p with
       | None => (w, inl (OSError p))
       | Some bs => (w, inr (Z.of_nat (length bs)))
       end.

(** The percentage is a float and is logged as the two sizes it is
    computed from; the division raises when the original size is 0. *)
Definition main (args : Args) : M unit :=
  logging INFO MsgCollecting;;
  char_set ← collect_chars_from_directory (arg_directory args);
  let char_set := add_kept_chars char_set (arg_keep args) in
  logging INFO (MsgFound (size char_set));;
  logging INFO MsgCreating;;
  create_font_subset (arg_font args) (arg_output args) char_set;;
  orig_size ← stat_size (arg_font args);
  new_size ← stat_size (arg_output args);
  (if orig_size =? 0 then raise ZeroDivisionError else ret tt);;
  logging INFO (MsgDone (orig_size / 1024) (new_size / 1024));;
  logging INFO (MsgReduced orig_size new_size).

(** The interpreter's exit status: 1 after an uncaught exception. *)
Definition exit_status {A} (r : exn + A) : Z :=
  match r with
  | inl _ => 1
  | inr _ => 0
  end.
End Program.

(** ** A small instance of the interface

    A toy font has one glyph per byte of its file, drawing the character
    with that code point; glyph 0 is the missing glyph.  Subsetting keeps
    glyph 0 and the glyphs asked for.  Saving opens the output path for
    writing and writes the glyphs; the disk has room for four bytes. *)
Module Toy.
Definition to_byte (c : Z) : byte := default x00 (Byte.of_N (Z.to_N c)).

Definition load (fs : gmap str bytes) (font_path : str) : exn + list Z :=
  match fs !! font_path with
  | None => inl (OSError font_path)
  | Some [] => inl (TTLibError 1)
  | Some bs => inr (byte_val <$> bs)
  end.

Definition subset (o : Options unit) (unicodes : gset Z) (f : list Z)
    : list Z * option exn :=
  (filter (λ c, c = 0 ∨ c ∈ unicodes) f, None).

Definition save (f : list Z) (output_path : str) (o : Options unit)
    (fs : gmap str bytes) : list Z * gmap str bytes * option exn :=
  let data := to_byte <$> f in
  if (length data <=? 4)%nat
  then (f, <[output_path := data]> fs, None)
  else (f, <[output_path := take 4 data]> fs, Some (OSError output_path)).

#[export] Instance lib : FontTools := {|
  Font := list Z;
  OtherOptions := unit;
  Options_new := mkOptions false true false false tt;
  TTFont := load;
  Subsetter_subset := subset;
  save_font := save;
  TTFont_close := λ f, f;
|}.

Definition font_file (s : string) : bytes := list_byte_of_string s.

(** A project directory with one page, one script and one file that is
    not UTF-8, and a font. *)
Definition site : gmap str bytes :=
  {[ u "site/index.html" := font_file "<p title='hi'>ab</p><script>x</script>";
     u "site/app.js" := font_file "const s = `c${d}e`;";
     u "site/bad.html" := [xff; xfe];
     u "font.ttf" := font_file "abcdefgh xyz" ]}.

Definition site_entries : list DirEntry :=
  [ {| entry_path := u "site"; entry_is_file := inr false |};
    {| entry_path := u "site/index.html"; entry_is_file := inr true |};
    {| entry_path := u "site/bad.html"; entry_is_file := inr true |};
    {| entry_path := u "site/gone.js"; entry_is_file := inr true |};
    {| entry_path := u "site/app.js"; entry_is_file := inr true |};
    {| entry_path := u "site/logo.png"; entry_is_file := inr true |} ].

Definition world : World :=
  mkWorld site
    (λ d, if decide (d = u "site") then (site_entries, None) else ([], None))
    ∅ [] [].

(** The same files, enumerated in the opposite order. *)
Definition world_rev : World :=
  mkWorld site
    (λ d, if decide (d = u "site") then (reverse site_entries, None)
          else ([], None))
    ∅ [] [].



End Toy.


(** ** Plain text

    The characters that open or close something for one of the script
    patterns: the three quotes, [$], the angle brackets, the braces and
    the opening parenthesis.  A text is plain when it has none of them. *)
Definition special : str := [34; 39; 96; 36; 60; 62; 123; 125; 40].

Definition plain (s : str) : bool :=
  forallb (λ c, negb (existsb (Z.eqb c) special)) s.

(** ** Where captured text comes from

    The groups of a match hold only characters with the property [P]. *)
Definition caps_within (P : Z → Prop) (caps : captures) : Prop :=
  Forall (λ nt : nat * str, Forall P nt.2) caps.

(** A set of characters all of which have the property [P]. *)
Definition set_within (P : Z → Prop) (chars : gset str) : Prop :=
  ∀ x, x ∈ chars → ∃ c, x = [c] ∧ P c.

(** The attribute names the HTML extractor reads. *)
Definition attr_names : list str :=
  [u "alt"; u "title"; u "placeholder"; u "aria-label"; u "data-content"].

(** The small instance with a font of four glyphs, which the disk has
    room for. *)
Definition toy_small_world : @World Toy.lib :=
  @mkWorld Toy.lib (<[u "small.ttf" := Toy.font_file "ab c"]> Toy.site)
    (@rglob Toy.lib Toy.world) ∅ [] [].

(** The methods of [console] the script extractor looks for. *)
Definition console_methods : list str :=
  [u "log"; u "warn"; u "error"; u "info"].

(** * Facts about the matcher *)

Section MatcherFacts.
Context (fl : flags) {R : Type}.
Implicit Types (r : regex) (s : str) (k : str → captures → option R).

(** A repetition whose continuation fails everywhere fails. *)
Lemma rep_lazy_fail (P : Z → Prop) cs s min (k : str → option R) :
  Forall P s → (∀ s', Forall P s' → k s' = None) →
  rep_lazy fl cs s min k = None.
Proof.
  intros Hs Hk. revert min.
  induction Hs as [|c s Hc Hs IH]; intros min; simpl.
  - destruct min; [rewrite Hk|]; done.
  - rewrite IH. destruct min.
    + rewrite Hk by (by constructor). by destruct (cs_match _ _ _).
    + by destruct (cs_match _ _ _).
Qed.

Lemma rep_greedy_fail (P : Z → Prop) cs s min (k : str → option R) :
  Forall P s → (∀ s', Forall P s' → k s' = None) →
  rep_greedy fl cs s min k = None.
Proof.
  intros Hs Hk. revert min.
  induction Hs as [|c s Hc Hs IH]; intros min; simpl.
  - destruct min; [rewrite Hk|]; done.
  - rewrite IH. destruct min.
    + rewrite Hk by (by constructor). by destruct (cs_match _ _ _).
    + by destruct (cs_match _ _ _).
Qed.

(** The continuation is only ever called on a rest of the text: if it
    fails on every text whose characters satisfy [P], so does the match. *)
Lemma rmatch_fail (P : Z → Prop) r : ∀ s caps k,
  Forall P s → (∀ s' caps', Forall P s' → k s' caps' = None) →
  rmatch fl r s caps k = None.
Proof.
  induction r as [|c|cs|r1 IH1 r2 IH2|r1 IH1 r2 IH2|n r1 IH1|min g cs];
    intros s caps k Hs Hk; simpl.
  - by apply Hk.
  - destruct Hs as [|x s Hx Hs]; [done|].
    destruct (lit_match _ _ _); [by apply Hk|done].
  - destruct Hs as [|x s Hx Hs]; [done|].
    destruct (cs_match _ _ _); [by apply Hk|done].
  - apply IH1; [done|]. intros s' caps' Hs'. by apply IH2.
  - rewrite IH1 by done. by apply IH2.
  - apply IH1; [done|]. intros s' caps' Hs'. by apply Hk.
  - destruct g.
    + apply (rep_greedy_fail P); [done|]. intros s' Hs'. by apply Hk.
    + apply (rep_lazy_fail P); [done|]. intros s' Hs'. by apply Hk.
Qed.

Lemma rmatch_cat_fail (P : Z → Prop) r1 r2 s caps k :
  Forall P s → (∀ s' caps', Forall P s' → rmatch fl r2 s' caps' k = None) →
  rmatch fl (RCat r1 r2) s caps k = None.
Proof. intros Hs Hk. simpl. by apply (rmatch_fail P). Qed.

(** No match begins with a character the pattern cannot start with. *)
Lemma rmatch_cannot_start r : ∀ x s caps k,
  can_start fl r x = false →
  (nullable r = true → ∀ caps', k (x :: s) caps' = None) →
  rmatch fl r (x :: s) caps k = None.
Proof.
  induction r as [|c|cs|r1 IH1 r2 IH2|r1 IH1 r2 IH2|n r1 IH1|min g cs];
    intros x s caps k Hx Hk; simpl in *.
  - by apply Hk.
  - by rewrite Hx.
  - by rewrite Hx.
  - apply orb_false_elim in Hx as [Hx1 Hx2].
    apply IH1; [done|]. intros Hn1 caps'. rewrite Hn1 in *. simpl in *.
    apply IH2; [done|]. intros Hn2. by apply Hk.
  - apply orb_false_elim in Hx as [Hx1 Hx2].
    rewrite IH1; [|done|]; [apply IH2; [done|]|];
      intros Hn; apply Hk; rewrite Hn; by rewrite ?orb_true_r.
  - apply IH1; [done|]. intros Hn caps'. by apply Hk.
  - destruct g; simpl; rewrite Hx; destruct min; simpl in *; try done;
      by rewrite Hk.
Qed.

Lemma rmatch_nil r : ∀ caps k,
  nullable r = false → rmatch fl r [] caps k = None.
Proof.
  induction r as [|c|cs|r1 IH1 r2 IH2|r1 IH1 r2 IH2|n r1 IH1|min g cs];
    intros caps k Hn; simpl in *; try done.
  - apply andb_false_iff in Hn as [Hn|Hn]; [by apply IH1|].
    destruct (nullable r1) eqn:Hn1; [|by apply IH1].
    apply (rmatch_fail (λ _, False)); [constructor|].
    intros s' caps' Hs'. destruct Hs'; [by apply IH2|done].
  - apply orb_false_elim in Hn as [Hn1 Hn2].
    rewrite IH1 by done. by apply IH2.
  - by apply IH1.
  - destruct g, min; done.
Qed.
(** A match hands its continuation a rest of the text, and a shorter one
    when the pattern is not nullable. *)
Lemma rep_lazy_inv cs s : ∀ min (k : str → option R) x,
  rep_lazy fl cs s min k = Some x →
  ∃ s', k s' = Some x ∧ (length s' + min ≤ length s)%nat.
Proof.
  induction s as [|c s IH]; intros min k x; simpl.
  - destruct min; [|done]. destruct (k []) eqn:Hk; [|done].
    intros [= ->]. exists []. by rewrite Hk.
  - destruct min as [|min].
    + destruct (k (c :: s)) eqn:Hk.
      * intros [= ->]. exists (c :: s). split; [done|simpl; lia].
      * destruct (cs_match fl cs c); [|done]. intros H.
        apply IH in H as (s' & Hs' & Hlen). exists s'. split; [done|simpl; lia].
    + destruct (cs_match fl cs c); [|done]. simpl. intros H.
      apply IH in H as (s' & Hs' & Hlen). exists s'. split; [done|simpl; lia].
Qed.

Lemma rep_greedy_inv cs s : ∀ min (k : str → option R) x,
  rep_greedy fl cs s min k = Some x →
  ∃ s', k s' = Some x ∧ (length s' + min ≤ length s)%nat.
Proof.
  induction s as [|c s IH]; intros min k x; simpl.
  - destruct min; [|done]. intros Hk. exists []. split; [done|simpl; lia].
  - assert (Hstop : match min with O => k (c :: s) | S _ => None end = Some x →
              ∃ s', k s' = Some x ∧ (length s' + min ≤ S (length s))%nat).
    { destruct min; [|done]. intros Hk. exists (c :: s). split; [done|simpl; lia]. }
    destruct (cs_match fl cs c); [|done].
    destruct (rep_greedy fl cs s (Nat.pred min) k) eqn:Hrec; [|done].
    intros [= ->]. apply IH in Hrec as (s' & Hs' & Hlen).
    exists s'. split; [done|lia].
Qed.

Lemma rmatch_inv r : ∀ s caps k x,
  rmatch fl r s caps k = Some x →
  ∃ s' caps', k s' caps' = Some x
    ∧ (length s' ≤ length s)%nat
    ∧ (nullable r = false → (length s' < length s)%nat).
Proof.
  induction r as [|c|cs|r1 IH1 r2 IH2|r1 IH1 r2 IH2|n r1 IH1|min g cs];
    intros s caps k x; simpl.
  - intros Hk. exists s, caps. split; [done|]. split; [lia|done].
  - destruct s as [|y s]; [done|]. destruct (lit_match fl c y); [|done].
    intros Hk. exists s, caps. split; [done|]. simpl. split; lia.
  - destruct s as [|y s]; [done|]. destruct (cs_match fl cs y); [|done].
    intros Hk. exists s, caps. split; [done|]. simpl. split; lia.
  - intros H. apply IH1 in H as (s1 & caps1 & H & Hle1 & Hlt1).
    apply IH2 in H as (s2 & caps2 & H & Hle2 & Hlt2).
    exists s2, caps2. split; [done|]. split; [lia|].
    intros [Hn|Hn]%andb_false_iff; [specialize (Hlt1 Hn)|specialize (Hlt2 Hn)]; lia.
  - destruct (rmatch fl r1 s caps k) eqn:H1.
    + intros [= ->]. apply IH1 in H1 as (s1 & caps1 & H & Hle & Hlt).
      exists s1, caps1. split; [done|]. split; [done|].
      intros [Hn _]%orb_false_elim. by apply Hlt.
    + intros H. apply IH2 in H as (s2 & caps2 & H & Hle & Hlt).
      exists s2, caps2. split; [done|]. split; [done|].
      intros [_ Hn]%orb_false_elim. by apply Hlt.
  - intros H. apply IH1 in H as (s1 & caps1 & H & Hle & Hlt). eauto.
  - intros H.
    assert (∃ s', k s' caps = Some x ∧ (length s' + min ≤ length s)%nat)
      as (s' & Hs' & Hlen).
    { destruct g; [by apply rep_greedy_inv in H|by apply rep_lazy_inv in H]. }
    exists s', caps. split; [done|]. split; [lia|].
    intros Hn%Nat.eqb_neq. lia.
Qed.
End MatcherFacts.

(** A pattern that is not nullable never matches the empty string, so
    [finditer_from] and [sub_from] always advance past a match. *)
Lemma match_at_consumes fl r s rest caps :
  nullable r = false → match_at fl r s = Some (rest, caps) →
  (length rest < length s)%nat.
Proof.
  intros Hn H. apply rmatch_inv in H as (s' & caps' & [= -> ->] & _ & Hlt).
  by apply Hlt.
Qed.

Lemma program_patterns_consume :
  Forall (λ r, nullable r = false)
    [ pat_nonrendering; pat_tag; pat_attr; pat_style_content;
      pat_string double_quote; pat_string single_quote; pat_string backtick;
      pat_template_expr; pat_jsx_text; pat_console ].
Proof. repeat constructor. Qed.

(** * Facts about [re.findall] and [re.sub] *)

Section ScanFacts.
Context (fl : flags) (r : regex).
Hypothesis r_consumes : nullable r = false.

Lemma match_at_cannot_start x s :
  can_start fl r x = false → match_at fl r (x :: s) = None.
Proof.
  intros Hx. apply rmatch_cannot_start; [done|]. by rewrite r_consumes.
Qed.

Lemma finditer_skip x : ∀ n y,
  length x = n → finditer_from fl r n (x ++ y) = finditer_from fl r O y.
Proof.
  induction x as [|c x IH]; intros n y Hn; simpl in *; subst n; [done|].
  by apply IH.
Qed.

Lemma finditer_none (P : Z → Prop) s :
  Forall P s → (∀ t, Forall P t → match_at fl r t = None) →
  finditer_from fl r O s = [].
Proof.
  intros Hs Hm. induction Hs as [|c s Hc Hs IH]; simpl; [done|].
  rewrite (Hm (c :: s)) by (by constructor). exact IH.
Qed.

Lemma finditer_prefix x y :
  Forall (λ c, can_start fl r c = false) x →
  finditer_from fl r O (x ++ y) = finditer_from fl r O y.
Proof.
  induction 1 as [|c x Hc Hx IH]; simpl; [done|].
  by rewrite match_at_cannot_start.
Qed.

Lemma finditer_hit c m rest caps :
  match_at fl r (c :: m ++ rest) = Some (rest, caps) →
  finditer_from fl r O (c :: m ++ rest) = caps :: finditer_from fl r O rest.
Proof.
  intros Hm. simpl. simpl in Hm. rewrite Hm. f_equal.
  apply finditer_skip. rewrite length_app. lia.
Qed.

Lemma sub_skip repl x : ∀ n y,
  length x = n → sub_from fl r repl n (x ++ y) = sub_from fl r repl O y.
Proof.
  induction x as [|c x IH]; intros n y Hn; simpl in *; subst n; [done|].
  by apply IH.
Qed.

Lemma sub_prefix repl x y :
  Forall (λ c, can_start fl r c = false) x →
  sub_from fl r repl O (x ++ y) = x ++ sub_from fl r repl O y.
Proof.
  induction 1 as [|c x Hc Hx IH]; simpl; [done|].
  rewrite match_at_cannot_start by done. by f_equal.
Qed.

Lemma sub_unchanged repl x :
  Forall (λ c, can_start fl r c = false) x → sub_from fl r repl O x = x.
Proof.
  intros Hx. rewrite <- (app_nil_r x) at 1.
  rewrite sub_prefix by done. simpl. by rewrite app_nil_r.
Qed.

Lemma sub_hit repl c m rest caps :
  match_at fl r (c :: m ++ rest) = Some (rest, caps) →
  sub_from fl r repl O (c :: m ++ rest) = repl ++ sub_from fl r repl O rest.
Proof.
  intros Hm. simpl. simpl in Hm. rewrite Hm. f_equal.
  apply sub_skip. rewrite length_app. lia.
Qed.
End ScanFacts.

Section LazyScan.
Context (fl : flags) {R : Type}.

(** A lazy repetition walks over [body] as long as the rest of the
    pattern cannot begin there, and stops where it can. *)
Lemma rep_lazy_scan cs body tail (k : str → option R) res :
  Forall (λ c, cs_match fl cs c = true ∧ ∀ t, k (c :: t) = None) body →
  k tail = Some res →
  rep_lazy fl cs (body ++ tail) O k = Some res.
Proof.
  intros Hb Hk. induction Hb as [|c body [Hc Hkc] Hb IH]; simpl.
  - destruct tail; simpl; by rewrite Hk.
  - by rewrite Hkc, Hc.
Qed.
End LazyScan.

Lemma take_consumed (body tail : str) :
  take (length (body ++ tail) - length tail) (body ++ tail) = body.
Proof.
  rewrite length_app.
  replace (length body + length tail - length tail)%nat with (length body) by lia.
  by rewrite take_app_length.
Qed.

(** A delimited string whose body is free of the delimiter is matched
    whole, and its body is group 1. *)
Lemma match_string fl q body rest :
  IGNORECASE fl = false →
  Forall (λ c, c ≠ q ∧ cs_match fl Dot c = true) body →
  match_at fl (pat_string q) (q :: body ++ q :: rest) = Some (rest, [(1%nat, body)]).
Proof.
  intros Hfl Hb. unfold match_at, pat_string. simpl.
  unfold lit_match. rewrite Hfl, Z.eqb_refl.
  rewrite (rep_lazy_scan fl Dot body (q :: rest) _ (rest, [(1%nat, body)])); [done| |].
  - eapply Forall_impl; [exact Hb|]. intros c [Hc1 Hc2]. split; [done|].
    intros t. simpl. by rewrite (proj2 (Z.eqb_neq c q)).
  - simpl. rewrite Z.eqb_refl. unfold set_group.
    change (S (length rest)) with (length (q :: rest)).
    by rewrite take_consumed.
Qed.

Lemma match_template_expr e rest :
  Forall (λ c, c ≠ 125 ∧ c ≠ 10) e →
  match_at NOFLAG pat_template_expr (36 :: 123 :: e ++ 125 :: rest) = Some (rest, []).
Proof.
  intros He. unfold match_at. simpl.
  apply (rep_lazy_scan NOFLAG Dot e (125 :: rest)); [|done].
  eapply Forall_impl; [exact He|]. intros c [Hc1 Hc2]. split.
  - simpl. by rewrite (proj2 (Z.eqb_neq c 10)).
  - intros t. simpl. change (chr "}") with 125. unfold lit_match. simpl.
    by rewrite (proj2 (Z.eqb_neq c 125)).
Qed.

Lemma finditer_cannot_start fl r s :
  nullable r = false →
  Forall (λ c, can_start fl r c = false) s → finditer_from fl r O s = [].
Proof.
  intros Hr Hs. rewrite <- (app_nil_r s). by rewrite finditer_prefix.
Qed.

Lemma plain_Forall s :
  plain s = true →
  Forall (λ c, c ≠ 34 ∧ c ≠ 39 ∧ c ≠ 96 ∧ c ≠ 36 ∧ c ≠ 60 ∧ c ≠ 62
               ∧ c ≠ 123 ∧ c ≠ 125 ∧ c ≠ 40) s.
Proof.
  unfold plain. rewrite forallb_forall, Forall_forall.
  intros H c Hc. apply list_elem_of_In, H in Hc. simpl in Hc. lia.
Qed.

(** The message-logging pattern needs an opening parenthesis. *)
Lemma match_console_none t :
  Forall (λ c, c ≠ 40) t → match_at NOFLAG pat_console t = None.
Proof.
  intros Ht. unfold match_at, pat_console, rseq. simpl foldr.
  apply (rmatch_cat_fail NOFLAG (λ c, c ≠ 40)); [done|]. intros s1 c1 H1.
  apply (rmatch_cat_fail NOFLAG (λ c, c ≠ 40)); [done|]. intros s2 c2 H2.
  destruct H2 as [|x s2 Hx H2]; simpl; [done|].
  change (chr "(") with 40. unfold lit_match. simpl.
  by rewrite (proj2 (Z.eqb_neq x 40)).
Qed.

(** The JSX-text pattern needs an opening angle bracket or brace. *)
Lemma match_jsx_none t :
  Forall (λ c, c ≠ 60 ∧ c ≠ 123) t → match_at NOFLAG pat_jsx_text t = None.
Proof.
  intros Ht. unfold match_at, pat_jsx_text, rseq. simpl foldr.
  set (P := λ c : Z, c ≠ 60 ∧ c ≠ 123).
  do 3 (apply (rmatch_cat_fail NOFLAG P); [done|]; intros ? ? ?).
  apply (rmatch_cat_fail NOFLAG P); [done|]. intros s4 c4 H4.
  destruct H4 as [|x s4 [Hx1 Hx2] H4]; simpl; [done|].
  change (chr "<") with 60. change (chr "{") with 123. unfold lit_match. simpl.
  by rewrite (proj2 (Z.eqb_neq x 60)), (proj2 (Z.eqb_neq x 123)).
Qed.

Lemma findall_no_delimiter fl q s :
  IGNORECASE fl = false → Forall (λ c, c ≠ q) s →
  re_findall1 (pat_string q) s fl = [].
Proof.
  intros Hfl Hs. unfold re_findall1.
  rewrite finditer_cannot_start; [done|done|].
  eapply Forall_impl; [exact Hs|]. intros c Hc. simpl.
  unfold lit_match. rewrite Hfl. by rewrite (proj2 (Z.eqb_neq c q)).
Qed.

Lemma findall_one_literal q pre body post :
  Forall (λ c, c ≠ q) pre → Forall (λ c, c ≠ q) body → Forall (λ c, c ≠ q) post →
  re_findall1 (pat_string q) (pre ++ q :: body ++ q :: post) re_DOTALL = [body].
Proof.
  intros Hpre Hbody Hpost. unfold re_findall1.
  assert (Hstart : ∀ s, Forall (λ c, c ≠ q) s →
            Forall (λ c, can_start re_DOTALL (pat_string q) c = false) s).
  { intros s Hs. eapply Forall_impl; [exact Hs|]. intros c Hc. simpl.
    unfold lit_match. simpl. by rewrite (proj2 (Z.eqb_neq c q)). }
  rewrite finditer_prefix by auto.
  change (q :: body ++ q :: post) with (q :: body ++ [q] ++ post).
  rewrite app_assoc.
  rewrite (finditer_hit _ _ q (body ++ [q]) post [(1%nat, body)]).
  - rewrite finditer_cannot_start by auto. done.
  - rewrite <- app_assoc. apply match_string; [done|].
    eapply Forall_impl; [exact Hbody|]. by intros c Hc.
Qed.

Lemma findall_console_none s :
  Forall (λ c, c ≠ 40) s → re_findall2 pat_console s NOFLAG = [].
Proof.
  intros Hs. unfold re_findall2.
  rewrite (finditer_none _ _ (λ c, c ≠ 40)); [done|done|].
  apply match_console_none.
Qed.

Ltac reassoc := repeat (rewrite <- ?app_assoc; cbn [app]); reflexivity.
(** * The claims *)

(** C1 (code defect).  The claim: no character that occurs only inside a
    script, style, noscript or meta element is in the set returned for an
    HTML file.  The removal pattern ends in a literal backslash and digit
    instead of a back-reference, so an element closed by its own tag is
    not removed: for the page [<script>x</script>] the returned set holds
    [x].  The element is removed when it is closed by the five characters
    the pattern really asks for. *)
Theorem script_content_is_collected :
  [chr "x"] ∈ html_chars (u "<script>x</script>")
  ∧ re_sub pat_nonrendering [] (u "<script>x</script>") re_IGNORECASE
    = u "<script>x</script>"
  ∧ re_sub pat_nonrendering [] (u "a<script>x</\1>b") re_IGNORECASE = u "ab".
Proof.
  split; [|split]; [|vm_compute; reflexivity..].
  unfold html_chars, set_of_str. rewrite elem_of_list_to_set.
  apply list_elem_of_In. vm_compute. auto.
Qed.

(** C5, as the claim states it, fails: a character that occurs only
    inside an embedded expression is returned when the expression has a
    brace of its own, because the expression is cut at its first closing
    brace; and text between tags is returned although it is in no string
    literal and no logging call.  An expression that runs over a line
    break is not removed at all. *)
Lemma js_embedded_expression_leaks :
  [chr "k"] ∈ js_chars (u "`a${{k:1}.k}b`")
  ∧ [chr "t"] ∈ js_chars (u "<p>t</p>")
  ∧ [chr "k"] ∈ js_chars (u "`a${k" ++ [10] ++ u "}b`").
Proof.
  repeat split; apply (bool_decide_unpack _); vm_compute; exact I.
Qed.

(** * Facts about the scan *)

Section ScanRun.
Context `{FT : FontTools}.
Implicit Types (w : World) (e : DirEntry).

Lemma add_logs_nil w : add_logs [] w = w.
Proof. destruct w. unfold add_logs. simpl. by rewrite app_nil_r. Qed.

Lemma add_logs_add_logs l1 l2 w :
  add_logs l2 (add_logs l1 w) = add_logs (l1 ++ l2) w.
Proof. unfold add_logs. simpl. by rewrite app_assoc. Qed.

Lemma extract_html_run p w :
  extract_chars_from_html p w
  = (w, match read_decode (files w) p with
        | inl err => inl err
        | inr html => inr (html_chars html)
        end).
Proof.
  unfold extract_chars_from_html, mbind, M_bind, bind, read_text, ret.
  by destruct (read_decode _ _).
Qed.

Lemma extract_js_run p w :
  extract_chars_from_js p w
  = (w, match read_decode (files w) p with
        | inl err => inl err
        | inr js_content => inr (js_chars js_content)
        end).
Proof.
  unfold extract_chars_from_js, mbind, M_bind, bind, read_text, ret.
  by destruct (read_decode _ _).
Qed.

(** What an entry yields depends on the files only. *)
Lemma outcome_files w1 w2 e : files w1 = files w2 → outcome w1 e = outcome w2 e.
Proof.
  intros Hf. unfold outcome, extraction.
  repeat case_match; simpl; try done;
    by rewrite ?extract_html_run, ?extract_js_run, Hf.
Qed.

Lemma chars_of_files w1 w2 e : files w1 = files w2 → chars_of w1 e = chars_of w2 e.
Proof. intros Hf. unfold chars_of. by rewrite (outcome_files w1 w2). Qed.

Lemma warning_of_files w1 w2 e :
  files w1 = files w2 → warning_of w1 e = warning_of w2 e.
Proof. intros Hf. unfold warning_of. by rewrite (outcome_files w1 w2). Qed.

Lemma counted_files w1 w2 e : files w1 = files w2 → counted w1 e = counted w2 e.
Proof. intros Hf. unfold counted. by rewrite (outcome_files w1 w2). Qed.

(** One turn of the loop, for an entry whose [is_file()] returns: the
    exception of a failed extraction is caught and becomes a warning, and
    the loop variables stay as they were. *)
Lemma scan_entry_run st e w (is_a_file : bool) :
  entry_is_file e = inr is_a_file →
  scan_entry st e w
  = (add_logs (warning_of w e) w,
     inr (st.1 ∪ chars_of w e, (st.2 + counted w e)%nat)).
Proof.
  intros Hfile.
  unfold scan_entry, is_file, warning_of, chars_of, counted, outcome, extraction.
  unfold mbind at 1, M_bind at 1, bind at 1. rewrite Hfile.
  destruct st as [all_chars file_count]. simpl.
  destruct is_a_file; simpl.
  2: { rewrite add_logs_nil, (right_id_L ∅ (∪)). unfold ret. do 3 f_equal. lia. }
  unfold try_except, mbind, M_bind, bind.
  repeat case_decide; simpl.
  - rewrite extract_html_run. destruct (read_decode _ _); simpl.
    + unfold logging, ret. by rewrite (right_id_L ∅ (∪)), Nat.add_0_r.
    + unfold ret. rewrite add_logs_nil. do 3 f_equal. lia.
  - rewrite extract_js_run. destruct (read_decode _ _); simpl.
    + unfold logging, ret. by rewrite (right_id_L ∅ (∪)), Nat.add_0_r.
    + unfold ret. rewrite add_logs_nil. do 3 f_equal. lia.
  - unfold ret. by rewrite add_logs_nil, (right_id_L ∅ (∪)), Nat.add_0_r.
Qed.

(** The call of [is_file] is not inside the [try]: when it raises, the
    turn raises, and nothing is logged. *)
Lemma scan_entry_raise st e w err :
  entry_is_file e = inl err → scan_entry st e w = (w, inl err).
Proof.
  intros Hfile. unfold scan_entry, is_file, mbind, M_bind, bind.
  by rewrite Hfile.
Qed.

Lemma reached_ok entries :
  Forall (λ e, ∃ b : bool, entry_is_file e = inr b) entries →
  reached entries = (entries, None).
Proof.
  induction 1 as [|e entries [b Hb] _ IH]; simpl; [done|].
  by rewrite Hb, IH.
Qed.

Lemma reached_none entries :
  (reached entries).2 = None →
  (reached entries).1 = entries
  ∧ Forall (λ e, ∃ b : bool, entry_is_file e = inr b) entries.
Proof.
  induction entries as [|e entries IH]; simpl; [done|].
  destruct (entry_is_file e) as [err|b] eqn:He; simpl; [done|].
  intros [-> Hall]%IH. split; [done|]. constructor; [by exists b|done].
Qed.


Lemma scan_abort_none (it : list DirEntry * option exn) :
  scan_abort it = None
  ↔ it.2 = None ∧ Forall (λ e, ∃ b : bool, entry_is_file e = inr b) it.1.
Proof.
  unfold scan_abort. split.
  - destruct (reached it.1).2 eqn:Hr; [done|]. intros Hit.
    split; [done|]. by apply reached_none.
  - intros [Hit Hall]. by rewrite (reached_ok _ Hall).
Qed.

(** The loop stops at the first entry whose [is_file()] raises. *)
Lemma scan_entries_run entries : ∀ st w,
  for_each scan_entry st entries w
  = (add_logs ((reached entries).1 ≫= warning_of w) w,
     match (reached entries).2 with
     | Some err => inl err
     | None =>
       inr (st.1 ∪ ⋃ (chars_of w <$> (reached entries).1),
            (st.2 + sum_list (counted w <$> (reached entries).1))%nat)
     end).
Proof.
  induction entries as [|e entries IH]; intros st w; simpl.
  - unfold ret. rewrite add_logs_nil, (right_id_L ∅ (∪)), Nat.add_0_r.
    by destruct st.
  - unfold mbind at 1, M_bind at 1, bind at 1.
    destruct (entry_is_file e) as [err|b] eqn:He.
    { rewrite (scan_entry_raise _ _ _ err He). simpl. by rewrite add_logs_nil. }
    rewrite (scan_entry_run _ _ _ b He), IH. cbn [fst snd].
    set (w1 := add_logs (warning_of w e) w).
    set (r := reached entries).
    assert (Hf : files w1 = files w) by done.
    rewrite (list_bind_ext (warning_of w1) (warning_of w) r.1 r.1)
      by (done || intros e'; by apply warning_of_files).
    rewrite (list_fmap_ext (chars_of w1) (chars_of w) r.1)
      by (intros i e' _; by apply chars_of_files).
    rewrite (list_fmap_ext (counted w1) (counted w) r.1)
      by (intros i e' _; by apply counted_files).
    unfold w1. rewrite add_logs_add_logs. simpl. f_equal.
    destruct r.2; [done|].
    by rewrite (assoc_L (∪)), Nat.add_assoc.
Qed.

(** The scan as a whole: it raises what the first failing [is_file()]
    raises, or else what the iteration raises; otherwise it returns the
    union of what the entries yield. *)
Lemma collect_run directory w :
  collect_chars_from_directory directory w
  = let it := rglob w directory in
    let scanned := (reached it.1).1 in
    match scan_abort it with
    | Some err => (add_logs (scanned ≫= warning_of w) w, inl err)
    | None =>
      (add_logs
         ((it.1 ≫= warning_of w)
            ++ [(INFO, MsgProcessed (sum_list (counted w <$> it.1)))])
         w,
       inr (⋃ (chars_of w <$> it.1)))
    end.
Proof.
  unfold collect_chars_from_directory, for_each_yielded, mbind, M_bind, bind.
  rewrite scan_entries_run. cbv zeta. unfold scan_abort.
  destruct (reached (rglob w directory).1).2 as [err|] eqn:Hr; [done|].
  destruct (reached_none _ Hr) as [-> _].
  destruct (rglob w directory).2 as [err|]; [done|].
  simpl. unfold logging, ret.
  rewrite (left_id_L ∅ (∪)). f_equal.
  unfold add_log, add_logs. simpl. by rewrite app_assoc.
Qed.

(** What the scan returns or raises depends on the files and on what the
    directory yields, and on nothing else. *)
Lemma collect_result directory w1 w2 :
  files w1 = files w2 → rglob w1 directory = rglob w2 directory →
  (collect_chars_from_directory directory w1).2
  = (collect_chars_from_directory directory w2).2.
Proof.
  intros Hf Hr. rewrite !collect_run. cbv zeta. rewrite Hr.
  destruct (scan_abort _); [done|]. simpl. f_equal. f_equal.
  apply list_fmap_ext. intros i e' _. by apply chars_of_files.
Qed.

(** A scan that returns went through every entry, and no [is_file()]
    raised. *)
Lemma collect_returns directory w chars :
  (collect_chars_from_directory directory w).2 = inr chars →
  scan_abort (rglob w directory) = None
  ∧ chars = ⋃ (chars_of w <$> (rglob w directory).1).
Proof.
  rewrite collect_run. cbv zeta.
  destruct (scan_abort _); [done|]. simpl. by intros [= <-].
Qed.

(** The scan changes nothing but the log. *)
Lemma collect_frame directory w :
  let res := collect_chars_from_directory directory w in
  files res.1 = files w ∧ fonts res.1 = fonts w ∧ calls res.1 = calls w
  ∧ rglob res.1 = rglob w.
Proof. cbv zeta. rewrite collect_run. cbv zeta. by destruct (scan_abort _). Qed.
End ScanRun.

(** * Facts about the subsetting pipeline *)

Section PipelineRun.
Context `{FT : FontTools}.
Implicit Types (w : World) (char_set : gset str).

Lemma add_ord_run unicode_set char w :
  add_ord unicode_set char w
  = (add_logs (skip_warning char) w, inr (unicode_set ∪ code_point char)).
Proof.
  unfold add_ord, try_except, mbind, M_bind, bind, ord, skip_warning, code_point.
  destruct char as [|c [|d char]]; simpl.
  - unfold raise, logging, ret. by rewrite (right_id_L ∅ (∪)).
  - unfold ret. by rewrite add_logs_nil.
  - unfold raise, logging, ret. by rewrite (right_id_L ∅ (∪)).
Qed.

Lemma add_ords_run chars : ∀ unicode_set w,
  for_each add_ord unicode_set chars w
  = (add_logs (chars ≫= skip_warning) w,
     inr (unicode_set ∪ ⋃ (code_point <$> chars))).
Proof.
  induction chars as [|char chars IH]; intros unicode_set w; simpl.
  - unfold ret. by rewrite add_logs_nil, (right_id_L ∅ (∪)).
  - unfold mbind at 1, M_bind at 1, bind at 1.
    rewrite add_ord_run, IH, add_logs_add_logs.
    by rewrite (assoc_L (∪)).
Qed.

Lemma basic_chars_in char_set : basic_chars ⊆ unicode_set_of char_set.
Proof. unfold unicode_set_of. apply union_subseteq_r. Qed.

Lemma unicode_set_nonempty char_set : unicode_set_of char_set ≠ ∅.
Proof.
  intros H. assert (32 ∈ unicode_set_of char_set) as Hin.
  { apply basic_chars_in. unfold basic_chars. rewrite !elem_of_union, elem_of_singleton. tauto. }
  rewrite H in Hin. by apply not_elem_of_empty in Hin.
Qed.

(** The run of [create_font_subset], stage by stage: what it returns,
    the files, the font objects and the calls it leaves. *)
Lemma create_font_subset_run font_path output_path char_set w :
  let a := fresh (dom (fonts w)) in
  let U := unicode_set_of char_set in
  let o := fixed_options in
  let res := create_font_subset font_path output_path char_set w in
  match TTFont (files w) font_path with
  | inl e =>
    res.2 = inl e ∧ files res.1 = files w ∧ fonts res.1 = fonts w
    ∧ calls res.1 = calls w ++ [CallTTFont font_path]
  | inr f0 =>
    match Subsetter_subset o U f0 with
    | (f1, Some e) =>
      res.2 = inl e ∧ files res.1 = files w
      ∧ fonts res.1 = <[a := f1]> (fonts w)
      ∧ calls res.1 = calls w ++ [CallTTFont font_path; CallSubset o U a]
    | (f1, None) =>
      match save_font f1 output_path o (files w) with
      | (f2, fs', Some e) =>
        res.2 = inl e ∧ files res.1 = fs'
        ∧ fonts res.1 = <[a := f2]> (fonts w)
        ∧ calls res.1 = calls w ++ [CallTTFont font_path; CallSubset o U a;
                                    CallSaveFont a output_path o]
      | (f2, fs', None) =>
        res.2 = inr tt ∧ files res.1 = fs'
        ∧ fonts res.1 = <[a := TTFont_close f2]> (fonts w)
        ∧ calls res.1 = calls w ++ [CallTTFont font_path; CallSubset o U a;
                                    CallSaveFont a output_path o; CallClose a]
      end
    end
  end.
Proof.
  intros a U o res. subst res.
  unfold create_font_subset, mbind, M_bind, bind, new_TTFont.
  cbn [files add_call].
  destruct (TTFont (files w) font_path) as [e|f0]; [done|].
  rewrite add_ords_run. rewrite (left_id_L ∅ (∪)).
  fold (unicode_set_of char_set). fold U. fold a. fold o.
  destruct (decide (U = ∅)) as [HU|_]; [by apply unicode_set_nonempty in HU|].
  unfold subsetter_subset. cbn [fonts add_call add_logs with_fonts].
  rewrite lookup_insert_eq.
  destruct (Subsetter_subset o U f0) as [f1 [e|]]; cbn.
  { rewrite insert_insert_eq, <- app_assoc. done. }
  unfold call_save_font. cbn [fonts files add_call add_logs with_fonts].
  rewrite lookup_insert_eq.
  destruct (save_font f1 output_path o (files w)) as [[f2 fs'] [e|]]; cbn.
  { rewrite !insert_insert_eq, <- !app_assoc. done. }
  rewrite !insert_insert_eq, alter_insert_eq, <- !app_assoc. done.
Qed.
End PipelineRun.

Section MainRun.
Context `{FT : FontTools}.

(** [main] stage by stage: when the scan raises, so does [main], and no
    call into fontTools has been made; when the scan returns, [main] runs
    [create_font_subset] on what the scan collected and the kept
    characters, and touches files and fonts in no other way. *)
Lemma main_run args w :
  match (collect_chars_from_directory (arg_directory args) w).2 with
  | inl e =>
    (main args w).2 = inl e
    ∧ files (main args w).1 = files w ∧ calls (main args w).1 = calls w
  | inr chars =>
    ∃ w1,
      files w1 = files w ∧ fonts w1 = fonts w ∧ calls w1 = calls w
      ∧ let r1 := create_font_subset (arg_font args) (arg_output args)
                    (add_kept_chars chars (arg_keep args)) w1 in
        calls (main args w).1 = calls r1.1
        ∧ files (main args w).1 = files r1.1
        ∧ (∀ e, r1.2 = inl e → (main args w).2 = inl e)
  end.
Proof.
  set (w0 := add_log INFO MsgCollecting w).
  assert (Hres : (collect_chars_from_directory (arg_directory args) w).2
                 = (collect_chars_from_directory (arg_directory args) w0).2)
    by (by apply collect_result).
  destruct (collect_frame (arg_directory args) w0) as (Hf & Hfo & Hc & _).
  rewrite Hres. unfold main, mbind, M_bind, bind, logging. fold w0.
  destruct (collect_chars_from_directory (arg_directory args) w0)
    as [w1 [e|chars]]; simpl in *; [done|].
  match goal with
  | |- context [create_font_subset _ _ _ ?w2] => exists w2
  end.
  split; [done|]. split; [done|]. split; [done|].
  destruct (create_font_subset _ _ _ _) as [w2 [e|[]]]; simpl.
  { split; [done|]. split; [done|]. by intros e' [= ->]. }
  unfold stat_size.
  destruct (files w2 !! arg_font args); simpl; [|done].
  destruct (files w2 !! arg_output args); simpl; [|done].
  by destruct (_ =? 0).
Qed.
End MainRun.

(** * The claims, continued *)

(** C2 (code defect).  The claim: with no [--keep] on the command line,
    what is added to the collected characters is exactly the enumerated
    letters, digits and punctuation.  The default of [--keep] is a
    sentence describing that set, and its characters are added as well:
    U+82F1, the first character of the sentence, is in the result although
    it is no letter, digit or punctuation mark. *)
Theorem default_keep_adds_its_description (d f : str) (o : option str) :
  let args := parse_args d f o None in
  ([0x82F1] ∈ add_kept_chars ∅ (arg_keep args))
  ∧ ([0x82F1] ∉ set_of_str (digits ++ ascii_letters ++ punctuation))
  ∧ (add_kept_chars ∅ (arg_keep args)
     ≠ set_of_str (digits ++ ascii_letters ++ punctuation)).
Proof.
  assert (H1 : [0x82F1] ∈ add_kept_chars ∅ default_keep).
  { apply (bool_decide_unpack _). vm_compute. exact I. }
  assert (H2 : [0x82F1] ∉ set_of_str (digits ++ ascii_letters ++ punctuation)).
  { apply (bool_decide_unpack _). vm_compute. exact I. }
  simpl. repeat split; [done..|]. intros Heq. by rewrite Heq in H1.
Qed.

Section Claims.
Context `{FT : FontTools}.

(** C3, amended.  A run that fails ends with exit status 1.  When the
    failure is that of the scan, of [TTFont] or of the subsetter, the
    files are exactly as they were before the run.  When it is that of
    [save_font], or comes after [save_font] has returned, the files are
    exactly as that one call of [save_font] on the output path left them:
    the program writes nothing itself, it has no temporary file and no
    replace step, and it neither repairs nor removes what a failed
    [save_font] leaves at the output path. *)
Theorem failed_run_files (args : Args) (w w' : World) (e : exn) :
  main args w = (w', inl e) →
  exit_status (main args w).2 = 1
  ∧ match (collect_chars_from_directory (arg_directory args) w).2 with
    | inl e0 => e = e0 ∧ files w' = files w ∧ calls w' = calls w
    | inr chars =>
      let U := unicode_set_of (add_kept_chars chars (arg_keep args)) in
      match TTFont (files w) (arg_font args) with
      | inl e0 => e = e0 ∧ files w' = files w
      | inr f0 =>
        match Subsetter_subset fixed_options U f0 with
        | (f1, Some e1) => e = e1 ∧ files w' = files w
        | (f1, None) =>
          match save_font f1 (arg_output args) fixed_options (files w) with
          | (f2, fs', Some e2) => e = e2 ∧ files w' = fs'
          | (f2, fs', None) => files w' = fs'
          end
        end
      end
    end.
Proof.
  intros Hrun. split; [by rewrite Hrun|].
  pose proof (main_run args w) as Hmain. rewrite Hrun in Hmain. simpl in Hmain.
  destruct (collect_chars_from_directory (arg_directory args) w).2
    as [e0|chars].
  { destruct Hmain as ([= ->] & Hf & Hc). done. }
  destruct Hmain as (w1 & Hw1 & _ & _ & Hcalls & Hfiles & Hexn).
  pose proof (create_font_subset_run (arg_font args) (arg_output args)
                (add_kept_chars chars (arg_keep args)) w1) as Hcfs.
  cbv zeta in Hcfs. rewrite Hw1 in Hcfs. cbv zeta.
  destruct (TTFont (files w) (arg_font args)) as [e0|f0].
  { destruct Hcfs as (Hr & Hf & _). rewrite Hfiles, Hf.
    by specialize (Hexn _ Hr) as [= ->]. }
  destruct (Subsetter_subset _ _ f0) as [f1 [e1|]].
  { destruct Hcfs as (Hr & Hf & _). rewrite Hfiles, Hf.
    by specialize (Hexn _ Hr) as [= ->]. }
  destruct (save_font f1 _ _ _) as [[f2 fs'] [e2|]].
  - destruct Hcfs as (Hr & Hf & _). rewrite Hfiles, Hf.
    by specialize (Hexn _ Hr) as [= ->].
  - destruct Hcfs as (_ & Hf & _). by rewrite Hfiles, Hf.
Qed.


(** C8.  A scan that returns, returns the union of what the entries
    yield; and a scan of the same files that meets the same entries in
    another order returns the same set, unless its own iteration over
    the directory raises. *)
Theorem scan_order_independent (directory : str) (w1 w2 : World)
    (chars : gset str) :
  files w1 = files w2 →
  (rglob w1 directory).1 ≡ₚ (rglob w2 directory).1 →
  (collect_chars_from_directory directory w1).2 = inr chars →
  chars = ⋃ (chars_of w1 <$> (rglob w1 directory).1)
  ∧ (collect_chars_from_directory directory w2).2
    = match (rglob w2 directory).2 with
      | Some err => inl err
      | None => inr chars
      end.
Proof.
  intros Hf Hp [Habort ->]%collect_returns. split; [done|].
  apply scan_abort_none in Habort as [_ Hall].
  rewrite Hp in Hall. rewrite collect_run. cbv zeta.
  unfold scan_abort. rewrite (reached_ok _ Hall). simpl.
  destruct (rglob w2 directory).2; [done|]. simpl. f_equal.
  rewrite (list_fmap_ext (chars_of w2) (chars_of w1) (rglob w2 directory).1)
    by (intros i e' _; symmetry; by apply chars_of_files).
  by rewrite Hp.
Qed.
(** C6.  Whatever [char_set] is, the empty set included, the set handed
    to the subsetter holds the code points of space, newline, tab and
    carriage return, so it is never empty; the guard before the
    subsetting step therefore never skips it: once the font is loaded,
    the subsetter is called, with that set. *)
Theorem subsetter_always_gets_whitespace (font_path output_path : str)
    (char_set : gset str) (w : World) :
  let U := unicode_set_of char_set in
  let res := create_font_subset font_path output_path char_set w in
  (32 ∈ U ∧ 10 ∈ U ∧ 9 ∈ U ∧ 13 ∈ U)
  ∧ U ≠ ∅
  ∧ unicode_set_of ∅ = basic_chars
  ∧ (∀ o V a, CallSubset o V a ∈ calls res.1 →
              CallSubset o V a ∉ calls w → V = U)
  ∧ (∀ f0, TTFont (files w) font_path = inr f0 →
           CallSubset fixed_options U (fresh (dom (fonts w))) ∈ calls res.1).
Proof.
  intros U res.
  pose proof (create_font_subset_run font_path output_path char_set w) as Hrun.
  cbv zeta in Hrun. fold U res in Hrun.
  split; [|split; [|split; [|split]]].
  - pose proof (basic_chars_in char_set) as Hb. fold U in Hb.
    repeat split; apply Hb; unfold basic_chars;
      rewrite !elem_of_union, !elem_of_singleton; tauto.
  - apply unicode_set_nonempty.
  - unfold unicode_set_of. rewrite elements_empty. simpl.
    by rewrite (left_id_L ∅ (∪)).
  - intros o V a Hin Hnew.
    destruct (TTFont (files w) font_path) as [e|f0].
    { destruct Hrun as (_ & _ & _ & Hc). rewrite Hc in Hin.
      apply elem_of_app in Hin as [Hin|Hin]; [done|].
      apply list_elem_of_singleton in Hin. done. }
    destruct (Subsetter_subset _ _ f0) as [f1 [e1|]].
    { destruct Hrun as (_ & _ & _ & Hc). rewrite Hc in Hin.
      apply elem_of_app in Hin as [Hin|Hin]; [done|].
      repeat (apply elem_of_cons in Hin as [Hin|Hin]; [congruence|]).
      by apply elem_of_nil in Hin. }
    destruct (save_font f1 _ _ _) as [[f2 fs'] [e2|]];
      destruct Hrun as (_ & _ & _ & Hc); rewrite Hc in Hin;
      (apply elem_of_app in Hin as [Hin|Hin]; [done|]);
      repeat (apply elem_of_cons in Hin as [Hin|Hin]; [congruence|]);
      by apply elem_of_nil in Hin.
  - intros f0 Hload. rewrite Hload in Hrun.
    destruct (Subsetter_subset _ _ f0) as [f1 [e1|]].
    { destruct Hrun as (_ & _ & _ & ->). apply elem_of_app. right.
      apply elem_of_cons. right. apply elem_of_cons. by left. }
    destruct (save_font f1 _ _ _) as [[f2 fs'] [e2|]];
      destruct Hrun as (_ & _ & _ & ->); apply elem_of_app; right;
      apply elem_of_cons; right; apply elem_of_cons; by left.
Qed.

(** C9, amended.  A run that completes has made exactly one font
    object, the one loaded from the input file.  The subsetter is
    applied to that object and changes it where it is, the same object
    is then saved and closed, and no second container is made for the
    output. *)
Theorem completed_run_updates_loaded_font (font_path output_path : str)
    (char_set : gset str) (w w' : World) :
  create_font_subset font_path output_path char_set w = (w', inr tt) →
  let a := fresh (dom (fonts w)) in
  let U := unicode_set_of char_set in
  ∃ f0 f1 f2,
    TTFont (files w) font_path = inr f0
    ∧ Subsetter_subset fixed_options U f0 = (f1, None)
    ∧ save_font f1 output_path fixed_options (files w) = (f2, files w', None)
    ∧ fonts w' = <[a := TTFont_close f2]> (fonts w)
    ∧ calls w' = calls w ++ [CallTTFont font_path;
                             CallSubset fixed_options U a;
                             CallSaveFont a output_path fixed_options;
                             CallClose a].
Proof.
  intros Hdone a U.
  pose proof (create_font_subset_run font_path output_path char_set w) as Hrun.
  cbv zeta in Hrun. rewrite Hdone in Hrun. simpl in Hrun. fold a U in Hrun.
  destruct (TTFont (files w) font_path) as [e|f0];
    [destruct Hrun as [Hr _]; discriminate Hr|].
  destruct (Subsetter_subset _ _ f0) as [f1 [e1|]] eqn:Hsub;
    [destruct Hrun as [Hr _]; discriminate Hr|].
  destruct (save_font f1 _ _ _) as [[f2 fs'] [e2|]] eqn:Hsave;
    [destruct Hrun as [Hr _]; discriminate Hr|].
  destruct Hrun as (_ & Hfiles & Hfonts & Hcalls).
  exists f0, f1, f2. by rewrite Hfiles.
Qed.

(** C10.  Whatever the paths, the character set and the world, a run
    hands fontTools the same options: with subroutines inlined, and
    without hinting, legacy character maps and symbol character maps,
    whatever the other options of [Options()] are.  Once the font is
    loaded the subsetter is called with them, once the font is subset
    [save_font] is called with them, and no call of the run carries any
    others.  No argument of [create_font_subset] reaches them. *)
Theorem rebuild_options_are_fixed (font_path output_path : str)
    (char_set : gset str) (w : World) :
  let res := create_font_subset font_path output_path char_set w in
  let a := fresh (dom (fonts w)) in
  let U := unicode_set_of char_set in
  (desubroutinize fixed_options = true ∧ hinting fixed_options = false
   ∧ legacy_cmap fixed_options = false ∧ symbol_cmap fixed_options = false
   ∧ other_options fixed_options = other_options Options_new)
  ∧ ∃ new,
      calls res.1 = calls w ++ new
      ∧ Forall (λ c, ∀ o, call_options c = Some o → o = fixed_options) new
      ∧ (∀ f0, TTFont (files w) font_path = inr f0 →
           CallSubset fixed_options U a ∈ new)
      ∧ (∀ f0 f1, TTFont (files w) font_path = inr f0 →
           Subsetter_subset fixed_options U f0 = (f1, None) →
           CallSaveFont a output_path fixed_options ∈ new).
Proof.
  intros res a U. split; [done|].
  pose proof (create_font_subset_run font_path output_path char_set w) as Hrun.
  cbv zeta in Hrun. fold res a U in Hrun.
  assert (Hopts : ∀ l : list call,
            Forall (λ c, call_options c = None
                         ∨ call_options c = Some fixed_options) l →
            Forall (λ c, ∀ o, call_options c = Some o → o = fixed_options) l).
  { intros l Hl. eapply Forall_impl; [exact Hl|].
    intros c [Hc|Hc] o Ho; rewrite Hc in Ho; by simplify_eq. }
  destruct (TTFont (files w) font_path) as [e|f0].
  { destruct Hrun as (_ & _ & _ & Hc). eexists. split; [exact Hc|].
    split; [|split; [by intros ? [=]|by intros ? ? [=]]].
    apply Hopts. rewrite !Forall_cons, Forall_nil. simpl. tauto. }
  destruct (Subsetter_subset _ _ f0) as [f1 [e1|]] eqn:Hsub.
  { destruct Hrun as (_ & _ & _ & Hc). eexists. split; [exact Hc|].
    split; [|split].
    - apply Hopts. rewrite !Forall_cons, Forall_nil. simpl. tauto.
    - intros _ _. apply elem_of_cons. right. apply elem_of_cons. by left.
    - intros f0' f1' [= <-] Hsub'. rewrite Hsub in Hsub'. done. }
  destruct (save_font f1 _ _ _) as [[f2 fs'] [e2|]];
    destruct Hrun as (_ & _ & _ & Hc); (eexists; split; [exact Hc|]);
    (split; [|split]);
    [ apply Hopts; rewrite !Forall_cons, Forall_nil; simpl; tauto
    | intros _ _; apply elem_of_cons; right; apply elem_of_cons; by left
    | intros _ _ _ _; do 2 (apply elem_of_cons; right); apply elem_of_cons;
      by left
    | apply Hopts; rewrite !Forall_cons, Forall_nil; simpl; tauto
    | intros _ _; apply elem_of_cons; right; apply elem_of_cons; by left
    | intros _ _ _ _; do 2 (apply elem_of_cons; right); apply elem_of_cons;
      by left ].
Qed.
End Claims.

(** * Nothing is invented: matches and substitutions stay within the text *)

Section Within.
Context (fl : flags) {R : Type} (P : Z → Prop).

Lemma rep_lazy_within cs s : ∀ min (k : str → option R) x,
  Forall P s → rep_lazy fl cs s min k = Some x →
  ∃ s', k s' = Some x ∧ Forall P s'.
Proof.
  induction s as [|c s IH]; intros min k x Hs; simpl.
  - destruct min; [|done]. destruct (k []) eqn:Hk; [|done].
    intros [= ->]. exists []. by rewrite Hk.
  - apply Forall_cons in Hs as [Hc Hs].
    assert (Hmore : ∀ m, (if cs_match fl cs c then rep_lazy fl cs s m k else None)
                         = Some x → ∃ s', k s' = Some x ∧ Forall P s').
    { intros m. destruct (cs_match fl cs c); [|done]. by apply IH. }
    destruct min as [|min]; [|by apply Hmore].
    destruct (k (c :: s)) eqn:Hk; [|by apply Hmore].
    intros [= ->]. exists (c :: s). split; [done|]. by constructor.
Qed.

Lemma rep_greedy_within cs s : ∀ min (k : str → option R) x,
  Forall P s → rep_greedy fl cs s min k = Some x →
  ∃ s', k s' = Some x ∧ Forall P s'.
Proof.
  induction s as [|c s IH]; intros min k x Hs; simpl.
  - destruct min; [|done]. intros Hk. by exists [].
  - assert (Hstop : match min with O => k (c :: s) | S _ => None end = Some x →
              ∃ s', k s' = Some x ∧ Forall P s').
    { destruct min; [|done]. intros Hk. by exists (c :: s). }
    apply Forall_cons in Hs as [Hc Hs].
    destruct (cs_match fl cs c); [|done].
    destruct (rep_greedy fl cs s (Nat.pred min) k) eqn:Hrec; [|done].
    intros [= ->]. by apply IH in Hrec.
Qed.

Lemma rmatch_within r : ∀ s caps (k : str → captures → option R) x,
  Forall P s → caps_within P caps → rmatch fl r s caps k = Some x →
  ∃ s' caps', k s' caps' = Some x ∧ Forall P s' ∧ caps_within P caps'.
Proof.
  induction r as [|c|cs|r1 IH1 r2 IH2|r1 IH1 r2 IH2|n r1 IH1|min g cs];
    intros s caps k x Hs Hcaps; simpl.
  - intros Hk. by exists s, caps.
  - destruct Hs as [|y s Hy Hs]; [done|]. destruct (lit_match fl c y); [|done].
    intros Hk. by exists s, caps.
  - destruct Hs as [|y s Hy Hs]; [done|]. destruct (cs_match fl cs y); [|done].
    intros Hk. by exists s, caps.
  - intros H. apply IH1 in H as (s1 & caps1 & H & Hs1 & Hc1); [|done..].
    by apply IH2 in H.
  - destruct (rmatch fl r1 s caps k) eqn:H1.
    + intros [= ->]. by apply IH1 in H1.
    + by apply IH2.
  - intros H. apply IH1 in H as (s1 & caps1 & H & Hs1 & Hc1); [|done..].
    eexists _, _. split; [exact H|]. split; [done|].
    constructor; [|done]. simpl. by apply Forall_take.
  - intros H.
    assert (∃ s', k s' caps = Some x ∧ Forall P s') as (s' & Hs' & HP).
    { destruct g; [by apply rep_greedy_within in H|by apply rep_lazy_within in H]. }
    by exists s', caps.
Qed.
End Within.

Section WithinScan.
Context (fl : flags) (r : regex) (P : Z → Prop).

Lemma match_at_within s rest caps :
  Forall P s → match_at fl r s = Some (rest, caps) →
  Forall P rest ∧ caps_within P caps.
Proof.
  intros Hs H. apply (rmatch_within fl P) in H
    as (s' & caps' & [= -> ->] & Hs' & Hc'); [done|done|constructor].
Qed.

Lemma group_within n caps : caps_within P caps → Forall P (group n caps).
Proof.
  induction 1 as [|[i t] caps Ht Hcaps IH]; simpl; [constructor|].
  by destruct (Nat.eqb i n).
Qed.

Lemma finditer_within s : ∀ skip,
  Forall P s → Forall (caps_within P) (finditer_from fl r skip s).
Proof.
  induction s as [|c s IH]; intros skip Hs; simpl; [constructor|].
  pose proof Hs as [Hc Hs']%Forall_cons.
  destruct skip; [|by apply IH].
  destruct (match_at fl r (c :: s)) as [[rest caps]|] eqn:Hm; [|by apply IH].
  constructor; [|by apply IH].
  by apply match_at_within in Hm as [_ ?].
Qed.

Lemma sub_within repl s : ∀ skip,
  Forall P repl → Forall P s → Forall P (sub_from fl r repl skip s).
Proof.
  induction s as [|c s IH]; intros skip Hrepl Hs; simpl; [constructor|].
  apply Forall_cons in Hs as [Hc Hs].
  destruct skip; [|by apply IH].
  destruct (match_at fl r (c :: s)) as [[rest caps]|].
  - apply Forall_app. split; [done|by apply IH].
  - constructor; [done|by apply IH].
Qed.
End WithinScan.

Lemma findall1_within P r s fl :
  Forall P s → Forall (Forall P) (re_findall1 r s fl).
Proof.
  intros Hs. unfold re_findall1. apply Forall_fmap.
  eapply Forall_impl; [by apply finditer_within|].
  intros caps Hcaps. by apply group_within.
Qed.

Lemma findall2_within P r s fl :
  Forall P s →
  Forall (λ p : str * str, Forall P p.1 ∧ Forall P p.2) (re_findall2 r s fl).
Proof.
  intros Hs. unfold re_findall2. apply Forall_fmap.
  eapply Forall_impl; [by apply finditer_within|].
  intros caps Hcaps. simpl. split; by apply group_within.
Qed.

Lemma re_sub_within P r s fl : Forall P s → Forall P (re_sub r [] s fl).
Proof. intros Hs. unfold re_sub. apply sub_within; [constructor|done]. Qed.

Lemma elem_of_set_of_str x text : x ∈ set_of_str text ↔ ∃ c, x = [c] ∧ c ∈ text.
Proof.
  unfold set_of_str. rewrite elem_of_list_to_set, list_elem_of_fmap. done.
Qed.

Lemma elem_of_foldl_set_update x l : ∀ chars,
  x ∈ foldl set_update chars l ↔ x ∈ chars ∨ ∃ t, t ∈ l ∧ x ∈ set_of_str t.
Proof.
  induction l as [|t l IH]; intros chars; simpl.
  - split; [by left|]. intros [?|(t & Ht & _)]; [done|]. by apply elem_of_nil in Ht.
  - rewrite IH. unfold set_update. rewrite elem_of_union. split.
    + intros [[?|?]|(t' & Ht' & ?)]; [by left|right..].
      * exists t. split; [by left|done].
      * exists t'. split; [by right|done].
    + intros [?|(t' & [->|Ht']%elem_of_cons & ?)]; [by left; left|by left; right|].
      right. by exists t'.
Qed.

Lemma set_within_update (P : Z → Prop) (chars : gset str) (text : str) :
  set_within P chars → Forall P text → set_within P (set_update chars text).
Proof.
  intros Hchars Htext x. unfold set_update.
  intros [Hx|Hx]%elem_of_union; [by apply Hchars|].
  apply elem_of_set_of_str in Hx as (c & -> & Hc).
  exists c. split; [done|]. by eapply Forall_forall in Htext.
Qed.

Lemma set_within_foldl {A} (P : Z → Prop) (step : gset str → A → gset str)
    (l : list A) :
  (∀ chars a, a ∈ l → set_within P chars → set_within P (step chars a)) →
  ∀ chars, set_within P chars → set_within P (foldl step chars l).
Proof.
  induction l as [|a l IH]; intros Hstep chars Hchars; simpl; [done|].
  apply IH.
  - intros chars' a' Ha'. apply Hstep. by right.
  - apply Hstep; [by left|done].
Qed.

Lemma set_within_updates (P : Z → Prop) (chars : gset str) (l : list str) :
  set_within P chars → Forall (Forall P) l →
  set_within P (foldl set_update chars l).
Proof.
  intros Hchars Hl. apply set_within_foldl; [|done].
  intros chars' t Ht Hc. apply set_within_update; [done|].
  by eapply Forall_forall in Hl.
Qed.

(** X1.  Every element of the set returned for an HTML text is one
    character, and that character occurs in the text or is the space the
    extractor puts before each attribute value. *)
Theorem html_chars_from_text (html x : str) :
  x ∈ html_chars html → ∃ c, x = [c] ∧ (c ∈ html ∨ c = 32).
Proof.
  unfold html_chars. intros (c & -> & Hc)%elem_of_set_of_str.
  exists c. split; [done|]. revert c Hc. apply Forall_forall.
  set (Q := λ c : Z, c ∈ html ∨ c = 32).
  assert (Hhtml : Forall Q html) by (apply Forall_forall; intros c Hc; by left).
  assert (H1 : Forall Q (re_sub pat_nonrendering [] html re_IGNORECASE))
    by by apply re_sub_within.
  apply Forall_app. split.
  - pose proof (findall2_within Q pat_attr _ re_IGNORECASE H1) as Hattrs.
    pose proof (re_sub_within Q pat_tag _ NOFLAG H1) as Htext.
    revert Htext. generalize (re_sub pat_tag []
      (re_sub pat_nonrendering [] html re_IGNORECASE) NOFLAG).
    induction Hattrs as [|a attrs [_ Ha] _ IH]; intros text Htext; simpl; [done|].
    apply IH. rewrite Forall_app. split; [done|].
    change (u " ") with [32]. simpl. constructor; [by right|done].
  - apply Forall_concat. by apply findall1_within.
Qed.

(** X2.  Every element of the set returned for a script text is one
    character that occurs in the text. *)
Theorem js_chars_from_text (js_content x : str) :
  x ∈ js_chars js_content → ∃ c, x = [c] ∧ c ∈ js_content.
Proof.
  set (P := λ c : Z, c ∈ js_content).
  assert (Hjs : Forall P js_content) by (by apply Forall_forall).
  cut (set_within P (js_chars js_content)); [intros H Hx; by apply H|].
  unfold js_chars, js_string_chars.
  apply set_within_foldl.
  { intros chars [name args] Hlm Hchars. simpl.
    pose proof (findall2_within P pat_console js_content NOFLAG Hjs) as Hall.
    eapply Forall_forall in Hall as [_ Hargs]; [|exact Hlm]. simpl in Hargs.
    apply set_within_updates; [done|].
    apply Forall_app. split; by apply findall1_within. }
  apply set_within_updates; [|by apply findall1_within].
  apply set_within_foldl.
  { intros chars mtch Hm Hchars.
    apply set_within_update; [done|]. apply re_sub_within.
    pose proof (findall1_within P (pat_string backtick) js_content re_DOTALL Hjs)
      as Hall.
    by eapply Forall_forall in Hall. }
  do 2 (apply set_within_updates; [|by apply findall1_within]).
  intros y Hy. by apply not_elem_of_empty in Hy.
Qed.

(** * What the HTML extractor does to markup *)

Lemma sub_none fl r repl (P : Z → Prop) s :
  Forall P s → (∀ t, Forall P t → match_at fl r t = None) →
  sub_from fl r repl O s = s.
Proof.
  intros Hs Hm. induction Hs as [|c s Hc Hs IH]; simpl; [done|].
  rewrite (Hm (c :: s)) by (by constructor). by rewrite IH.
Qed.

Lemma ci_match_not_letter p x :
  is_ascii_lower p = false → ci_match p x = (x =? p).
Proof.
  intros Hp. unfold ci_match. rewrite Hp.
  assert (p ≠ 0x69 ∧ p ≠ 0x73 ∧ p ≠ 0x6B) as (H1 & H2 & H3).
  { unfold is_ascii_lower in Hp. lia. }
  rewrite (proj2 (Z.eqb_neq p 0x69)), (proj2 (Z.eqb_neq p 0x73)),
    (proj2 (Z.eqb_neq p 0x6B)) by done.
  simpl. by rewrite !orb_false_r.
Qed.

(** The removal pattern needs a backslash in the text. *)
Lemma match_nonrendering_none t :
  Forall (λ c, c ≠ 92) t → match_at re_IGNORECASE pat_nonrendering t = None.
Proof.
  intros Ht. unfold match_at, pat_nonrendering, rseq. simpl foldr.
  set (P := λ c : Z, c ≠ 92).
  apply (rmatch_cat_fail re_IGNORECASE P); [done|]. intros t1 ca1 Ht1.
  apply (rmatch_cat_fail re_IGNORECASE P); [done|]. intros t2 ca2 Ht2.
  apply (rmatch_cat_fail re_IGNORECASE P); [done|]. intros t3 ca3 Ht3.
  apply (rmatch_cat_fail re_IGNORECASE P); [done|]. intros t4 ca4 Ht4.
  apply (rmatch_cat_fail re_IGNORECASE P); [done|]. intros s ca Hs.
  simpl.
  destruct Hs as [|x1 s H1 Hs]; [done|]. destruct (lit_match _ _ x1); [|done].
  destruct Hs as [|x2 s H2 Hs]; [done|]. destruct (lit_match _ _ x2); [|done].
  destruct Hs as [|x3 s H3 Hs]; [done|].
  unfold lit_match at 1. simpl IGNORECASE. cbv iota.
  rewrite ci_match_not_letter by done.
  change (chr "\") with 92. by rewrite (proj2 (Z.eqb_neq x3 92)).
Qed.

(** X3.  In a text without a backslash the removal of non-rendering
    elements removes nothing. *)
Theorem nonrendering_removal_needs_backslash (html : str) :
  92 ∉ html → re_sub pat_nonrendering [] html re_IGNORECASE = html.
Proof.
  intros Hno. unfold re_sub.
  apply (sub_none _ _ _ (λ c, c ≠ 92)); [|apply match_nonrendering_none].
  apply Forall_forall. intros c Hc ->. done.
Qed.

(** Both attribute patterns need an equals sign. *)
Lemma match_attr_none t :
  Forall (λ c, c ≠ 61) t → match_at re_IGNORECASE pat_attr t = None.
Proof.
  intros Ht. unfold match_at, pat_attr, rseq. simpl foldr.
  set (P := λ c : Z, c ≠ 61).
  apply (rmatch_cat_fail re_IGNORECASE P); [done|]. intros s1 c1 H1.
  apply (rmatch_cat_fail re_IGNORECASE P); [done|]. intros s2 c2 H2.
  destruct H2 as [|x s2 Hx H2]; simpl; [done|].
  unfold lit_match at 1. simpl IGNORECASE. cbv iota.
  rewrite ci_match_not_letter by done.
  change (chr "=") with 61. by rewrite (proj2 (Z.eqb_neq x 61)).
Qed.

Lemma match_style_content_none t :
  Forall (λ c, c ≠ 61) t → match_at re_IGNORECASE pat_style_content t = None.
Proof.
  intros Ht. unfold match_at, pat_style_content, rseq. simpl foldr.
  set (P := λ c : Z, c ≠ 61).
  apply (rmatch_cat_fail re_IGNORECASE P); [done|]. intros s1 c1 H1.
  apply (rmatch_cat_fail re_IGNORECASE P); [done|]. intros s2 c2 H2.
  destruct H2 as [|x s2 Hx H2]; simpl; [done|].
  unfold lit_match at 1. simpl IGNORECASE. cbv iota.
  rewrite ci_match_not_letter by done.
  change (chr "=") with 61. by rewrite (proj2 (Z.eqb_neq x 61)).
Qed.

(** X4.  For a text with no backslash and no equals sign, the set
    returned is exactly the set of the characters left when the tags are
    stripped. *)
Theorem html_chars_without_attributes (html : str) :
  92 ∉ html → 61 ∉ html →
  html_chars html = set_of_str (re_sub pat_tag [] html NOFLAG).
Proof.
  intros H92 H61. unfold html_chars.
  rewrite nonrendering_removal_needs_backslash by done.
  assert (Hall : Forall (λ c, c ≠ 61) html).
  { apply Forall_forall. intros c Hc ->. done. }
  unfold re_findall2, re_findall1.
  rewrite (finditer_none _ _ (λ c, c ≠ 61)) by (done || apply match_attr_none).
  rewrite (finditer_none _ _ (λ c, c ≠ 61))
    by (done || apply match_style_content_none).
  simpl. by rewrite app_nil_r.
Qed.

Section GreedyScan.
Context (fl : flags) {R : Type}.

(** A greedy repetition takes the whole of [body] when every character of
    it fits and the next one does not, and the rest of the pattern then
    matches. *)
Lemma rep_greedy_scan cs body tail (k : str → option R) res : ∀ min,
  Forall (λ c, cs_match fl cs c = true) body →
  (min ≤ length body)%nat →
  match tail with [] => True | x :: _ => cs_match fl cs x = false end →
  k tail = Some res →
  rep_greedy fl cs (body ++ tail) min k = Some res.
Proof.
  intros min Hb. revert min.
  induction Hb as [|c body Hc Hb IH]; intros min Hmin Htail Hk; simpl in *.
  - assert (min = O) as -> by lia.
    destruct tail as [|x tail]; simpl; [done|]. by rewrite Htail.
  - rewrite Hc, IH; [done|lia|done..].
Qed.
End GreedyScan.

Lemma match_tag tag rest :
  tag ≠ [] → Forall (λ c, c ≠ 62) tag →
  match_at NOFLAG pat_tag (60 :: tag ++ 62 :: rest) = Some (rest, []).
Proof.
  intros Hne Htag. unfold match_at. simpl.
  apply (rep_greedy_scan NOFLAG (none_of ">") tag (62 :: rest)).
  - eapply Forall_impl; [exact Htag|]. intros c Hc. simpl.
    change (chr ">") with 62. unfold lit_match. simpl.
    by rewrite (proj2 (Z.eqb_neq c 62)).
  - destruct tag; [done|simpl; lia].
  - reflexivity.
  - reflexivity.
Qed.

Lemma match_tag_none t :
  Forall (λ c, c ≠ 62) t → match_at NOFLAG pat_tag t = None.
Proof.
  intros Ht. unfold match_at, pat_tag, rseq. simpl foldr.
  set (P := λ c : Z, c ≠ 62).
  apply (rmatch_cat_fail NOFLAG P); [done|]. intros s1 c1 H1.
  apply (rmatch_cat_fail NOFLAG P); [done|]. intros s2 c2 H2.
  destruct H2 as [|x s2 Hx H2]; simpl; [done|].
  change (chr ">") with 62. unfold lit_match. simpl.
  by rewrite (proj2 (Z.eqb_neq x 62)).
Qed.

Lemma tag_cannot_start s :
  Forall (λ c, c ≠ 60) s → Forall (λ c, can_start NOFLAG pat_tag c = false) s.
Proof.
  intros Hs. eapply Forall_impl; [exact Hs|]. intros c Hc. simpl.
  change (chr "<") with 60. unfold lit_match. simpl.
  by rewrite (proj2 (Z.eqb_neq c 60)).
Qed.

Lemma not_elem_Forall (c : Z) (s : str) : c ∉ s → Forall (λ x, x ≠ c) s.
Proof. intros Hc. apply Forall_forall. intros x Hx ->. done. Qed.

Lemma Forall_not_elem (c : Z) (s : str) : Forall (λ x, x ≠ c) s → c ∉ s.
Proof. intros Hs Hc. by eapply Forall_forall in Hs. Qed.

(** X5.  Tag stripping removes a tag, from its [<] to the first [>] after
    it, keeps the text before it, and goes on with the text after it. *)
Theorem tag_is_stripped (pre tag post : str) :
  60 ∉ pre → tag ≠ [] → 62 ∉ tag →
  re_sub pat_tag [] (pre ++ [60] ++ tag ++ [62] ++ post) NOFLAG
  = pre ++ re_sub pat_tag [] post NOFLAG.
Proof.
  intros Hpre Hne Htag. unfold re_sub. cbn [app].
  rewrite sub_prefix by (done || by apply tag_cannot_start, not_elem_Forall).
  f_equal.
  change (60 :: tag ++ 62 :: post) with (60 :: tag ++ [62] ++ post).
  rewrite app_assoc.
  rewrite (sub_hit _ _ [] 60 (tag ++ [62]) post []); [done|].
  rewrite <- app_assoc. apply match_tag; [done|by apply not_elem_Forall].
Qed.

(** X6.  A text in which no tag is both opened and closed comes out of
    tag stripping as it went in. *)
Theorem text_without_tags_is_kept (s : str) :
  60 ∉ s ∨ 62 ∉ s → re_sub pat_tag [] s NOFLAG = s.
Proof.
  unfold re_sub. intros [Hs|Hs].
  - apply sub_unchanged; [done|]. by apply tag_cannot_start, not_elem_Forall.
  - apply (sub_none _ _ _ (λ c, c ≠ 62)); [|apply match_tag_none].
    by apply not_elem_Forall.
Qed.

(** X7.  The text inside an element that is closed by its own tag is
    collected in full, whatever the element is: a script or style element
    as much as a paragraph. *)
Theorem element_text_is_collected (name body : str) :
  name ≠ [] →
  Forall (λ c, c ≠ 62 ∧ c ≠ 61 ∧ c ≠ 92) name →
  Forall (λ c, c ≠ 60 ∧ c ≠ 61 ∧ c ≠ 92) body →
  html_chars (u "<" ++ name ++ u ">" ++ body ++ u "</" ++ name ++ u ">")
  = set_of_str body.
Proof.
  intros Hne Hname Hbody.
  change (u "<") with [60]. change (u ">") with [62]. change (u "</") with [60; 47].
  assert (Hall : ∀ P : Z → Prop, P 60 → P 62 → P 47 →
            (∀ c, c ≠ 61 ∧ c ≠ 92 → P c) →
            Forall P ([60] ++ name ++ [62] ++ body ++ [60; 47] ++ name ++ [62])).
  { intros P H60 H62 H47 HP.
    repeat (rewrite ?Forall_app, ?Forall_cons). rewrite Forall_nil.
    repeat split; try done;
      (eapply Forall_impl; [eassumption|]; intros c Hc; apply HP; simpl in Hc; lia). }
  rewrite html_chars_without_attributes.
  - change ([60] ++ name ++ [62] ++ body ++ [60; 47] ++ name ++ [62])
      with ([] ++ [60] ++ name ++ [62] ++ (body ++ [60; 47] ++ name ++ [62])).
    rewrite tag_is_stripped.
    + change (body ++ [60; 47] ++ name ++ [62])
        with (body ++ [60] ++ (47 :: name) ++ [62] ++ []).
      rewrite tag_is_stripped; [by rewrite app_nil_r| | |].
      * intros Hin. rewrite Forall_forall in Hbody.
        by destruct (Hbody _ Hin) as [? _].
      * done.
      * intros [?|Hin]%elem_of_cons; [done|]. rewrite Forall_forall in Hname.
        by destruct (Hname _ Hin) as [? _].
    + by intros ?%elem_of_nil.
    + done.
    + intros Hin. rewrite Forall_forall in Hname.
      by destruct (Hname _ Hin) as [? _].
  - intros Hin. pose proof (Hall (λ c, c ≠ 92)) as H.
    rewrite Forall_forall in H. by apply (H ltac:(done) ltac:(done) ltac:(done)
      ltac:(intros; lia) 92 Hin).
  - intros Hin. pose proof (Hall (λ c, c ≠ 61)) as H.
    rewrite Forall_forall in H. by apply (H ltac:(done) ltac:(done) ltac:(done)
      ltac:(intros; lia) 61 Hin).
Qed.

Lemma attr_names_eq :
  attr_names
  = [[97; 108; 116]; [116; 105; 116; 108; 101];
     [112; 108; 97; 99; 101; 104; 111; 108; 100; 101; 114];
     [97; 114; 105; 97; 45; 108; 97; 98; 101; 108];
     [100; 97; 116; 97; 45; 99; 111; 110; 116; 101; 110; 116]].
Proof. reflexivity. Qed.

(** One of the five attributes, an equals sign, a value between two quote
    characters (not necessarily the same one): the match takes all of it,
    with the name as group 1 and the value as group 2. *)
Lemma match_attr name q q' val rest :
  name ∈ attr_names → q ∈ [34; 39] → q' ∈ [34; 39] →
  val ≠ [] → Forall (λ c, c ≠ 34 ∧ c ≠ 39) val →
  match_at re_IGNORECASE pat_attr (name ++ [61; q] ++ val ++ q' :: rest)
  = Some (rest, [(2%nat, val); (1%nat, name)]).
Proof.
  intros Hname Hq Hq' Hne Hval.
  assert (Hgreedy : ∀ res (k : str → option (str * captures)),
            k (q' :: rest) = Some res →
            rep_greedy re_IGNORECASE not_quote (val ++ q' :: rest) 1 k = Some res).
  { intros res k Hk. apply rep_greedy_scan; [| |  |done].
    - eapply Forall_impl; [exact Hval|]. intros c [Hc1 Hc2]. simpl.
      unfold lit_match. simpl. rewrite !ci_match_not_letter by done.
      by rewrite (proj2 (Z.eqb_neq c 34)), (proj2 (Z.eqb_neq c 39)).
    - destruct val; [done|simpl; lia].
    - repeat (apply elem_of_cons in Hq' as [->|Hq']; [reflexivity|]).
      by apply elem_of_nil in Hq'. }
  rewrite attr_names_eq in Hname.
  assert (Hq'' : q' = 34 ∨ q' = 39).
  { repeat (apply elem_of_cons in Hq' as [->|Hq']; [tauto|]).
    by apply elem_of_nil in Hq'. }
  assert (Hend : ∀ (k n : nat) (l : str),
            Some (rest, set_group 2
                    (take (length (val ++ q' :: rest) - S (length rest))
                       (val ++ q' :: rest))
                    (set_group 1 (take (k + n - n) l) []))
            = Some (rest, [(2%nat, val); (1%nat, take k l)])).
  { intros k n l. unfold set_group.
    change (S (length rest)) with (length (q' :: rest)).
    rewrite take_consumed. by replace (k + n - n)%nat with k by lia. }
  unfold match_at.
  repeat (apply elem_of_cons in Hname as [->|Hname];
    [repeat (apply elem_of_cons in Hq as [->|Hq];
       [simpl; erewrite Hgreedy;
          [|destruct Hq'' as [-> | ->]; simpl; reflexivity];
        first [ exact (Hend 3%nat _ _) | exact (Hend 5%nat _ _)
              | exact (Hend 11%nat _ _) | exact (Hend 10%nat _ _)
              | exact (Hend 12%nat _ _) ]
       |]);
     by apply elem_of_nil in Hq|]).
  by apply elem_of_nil in Hname.
Qed.

Lemma finditer_hit_app fl r s m rest caps :
  s = m ++ rest → m ≠ [] → match_at fl r s = Some (rest, caps) →
  finditer_from fl r O s = caps :: finditer_from fl r O rest.
Proof.
  intros -> Hm Hmatch. destruct m as [|c m]; [done|].
  by apply finditer_hit.
Qed.

Lemma attr_names_chars name :
  name ∈ attr_names →
  name ≠ []
  ∧ Forall (λ c, c ≠ 92 ∧ c ≠ 62 ∧ c ≠ 61
                 ∧ can_start re_IGNORECASE pat_style_content c = false) name.
Proof.
  rewrite attr_names_eq. intros Hname.
  repeat (apply elem_of_cons in Hname as [->|Hname];
          [split; [done|];
           repeat (apply Forall_cons; split;
                   [split; [lia|]; split; [lia|]; split; [lia|reflexivity]|]);
           by apply Forall_nil|]).
  by apply elem_of_nil in Hname.
Qed.

(** X8.  The value of an [alt], [title], [placeholder], [aria-label] or
    [data-content] attribute is collected, with a space before it, also
    when it is opened by one kind of quote and closed by the other; the
    tag around it is dropped. *)
Theorem attribute_value_is_collected (name val : str) (q q' : Z) :
  name ∈ attr_names → q ∈ [34; 39] → q' ∈ [34; 39] → val ≠ [] →
  Forall (λ c, c ≠ 34 ∧ c ≠ 39 ∧ c ≠ 61 ∧ c ≠ 62 ∧ c ≠ 92) val →
  html_chars (u "<img " ++ name ++ [61; q] ++ val ++ [q'; 62])
  = set_of_str (32 :: val).
Proof.
  intros Hname Hq Hq' Hne Hval.
  destruct (attr_names_chars name Hname) as [Hnamene Hn].
  assert (Hq2 : q = 34 ∨ q = 39).
  { repeat (apply elem_of_cons in Hq as [->|Hq]; [tauto|]).
    by apply elem_of_nil in Hq. }
  assert (Hq2' : q' = 34 ∨ q' = 39).
  { repeat (apply elem_of_cons in Hq' as [->|Hq']; [tauto|]).
    by apply elem_of_nil in Hq'. }
  change (u "<img ") with [60; 105; 109; 103; 32].
  set (html := [60; 105; 109; 103; 32] ++ name ++ [61; q] ++ val ++ [q'; 62]).
  assert (H92 : 92 ∉ html).
  { apply Forall_not_elem. unfold html. repeat (rewrite ?Forall_app, ?Forall_cons). rewrite Forall_nil.
    repeat split; try lia;
      (eapply Forall_impl; [eassumption|]; intros c Hc; simpl in Hc; tauto). }
  unfold html_chars.
  rewrite nonrendering_removal_needs_backslash by done.
  (* the tag is dropped *)
  assert (Htext : re_sub pat_tag [] html NOFLAG = []).
  { replace html
      with ([] ++ [60] ++ ([105; 109; 103; 32] ++ name ++ [61; q] ++ val ++ [q'])
               ++ [62] ++ []) by (unfold html; reassoc).
    rewrite tag_is_stripped; [done|by intros ?%elem_of_nil|done|].
    apply Forall_not_elem.
    repeat (rewrite ?Forall_app, ?Forall_cons). rewrite Forall_nil.
    repeat split; try lia;
      (eapply Forall_impl; [eassumption|]; intros c Hc; simpl in Hc; tauto). }
  (* the attribute is found *)
  assert (Hattrs : re_findall2 pat_attr html re_IGNORECASE = [(name, val)]).
  { unfold re_findall2, html.
    rewrite finditer_prefix by (done || (repeat constructor)).
    rewrite (finditer_hit_app _ _ _ (name ++ [61; q] ++ val ++ [q']) [62]
               [(2%nat, val); (1%nat, name)]).
    - simpl. rewrite attr_names_eq in Hname.
      repeat (apply elem_of_cons in Hname as [->|Hname]; [reflexivity|]).
      by apply elem_of_nil in Hname.
    - reassoc.
    - by destruct name.
    - apply match_attr; try done.
      eapply Forall_impl; [exact Hval|]. intros c Hc. simpl in Hc. tauto. }
  (* no inline style is found *)
  assert (Hstyle : re_findall1 pat_style_content html re_IGNORECASE = []).
  { unfold re_findall1.
    replace html with (([60; 105; 109; 103; 32] ++ name ++ [61; q])
                       ++ (val ++ [q'; 62])) by (unfold html; reassoc).
    rewrite finditer_prefix.
    - rewrite (finditer_none _ _ (λ c, c ≠ 61)); [done| |].
      + repeat (rewrite ?Forall_app, ?Forall_cons). rewrite Forall_nil.
        repeat split; try lia.
        eapply Forall_impl; [exact Hval|]. intros c Hc. simpl in Hc. tauto.
      + apply match_style_content_none.
    - done.
    - repeat (rewrite ?Forall_app, ?Forall_cons). rewrite Forall_nil.
      repeat split; try reflexivity.
      + eapply Forall_impl; [exact Hn|]. intros c Hc. simpl in Hc. tauto.
      + by destruct Hq2 as [-> | ->]. }
  rewrite Htext, Hattrs, Hstyle. simpl.
  change (u " ") with [32]. simpl. by rewrite app_nil_r.
Qed.

(** * What the script extractor collects *)

Lemma string_cannot_start fl q s :
  IGNORECASE fl = false → Forall (λ c, c ≠ q) s →
  Forall (λ c, can_start fl (pat_string q) c = false) s.
Proof.
  intros Hfl Hs. eapply Forall_impl; [exact Hs|]. intros c Hc. simpl.
  unfold lit_match. rewrite Hfl. by rewrite (proj2 (Z.eqb_neq c q)).
Qed.

Lemma template_expr_cannot_start s :
  Forall (λ c, c ≠ 36) s →
  Forall (λ c, can_start NOFLAG pat_template_expr c = false) s.
Proof.
  intros Hs. eapply Forall_impl; [exact Hs|]. intros c Hc. simpl.
  change (chr "$") with 36. unfold lit_match. simpl.
  by rewrite (proj2 (Z.eqb_neq c 36)).
Qed.

Lemma jsx_cannot_start s :
  Forall (λ c, c ≠ 62 ∧ c ≠ 125) s →
  Forall (λ c, can_start NOFLAG pat_jsx_text c = false) s.
Proof.
  intros Hs. eapply Forall_impl; [exact Hs|]. intros c [Hc1 Hc2]. simpl.
  change (chr ">") with 62. change (chr "}") with 125.
  unfold lit_match. simpl.
  by rewrite (proj2 (Z.eqb_neq c 62)), (proj2 (Z.eqb_neq c 125)).
Qed.

Lemma findall_jsx_cannot_start s :
  Forall (λ c, c ≠ 62 ∧ c ≠ 125) s → re_findall1 pat_jsx_text s NOFLAG = [].
Proof.
  intros Hs. unfold re_findall1.
  rewrite finditer_cannot_start; [done|done|by apply jsx_cannot_start].
Qed.

(** X9.  A string literal between two double quotes, two single quotes
    or two backticks, with plain text in it and plain code around it, is
    collected in full, line breaks included, and nothing else is. *)
Theorem js_string_literal_is_collected (q : Z) (pre body post : str) :
  q ∈ [double_quote; single_quote; backtick] →
  plain pre = true → plain body = true → plain post = true →
  js_chars (pre ++ [q] ++ body ++ [q] ++ post) = set_of_str body.
Proof.
  intros Hq Hpre Hbody Hpost.
  apply plain_Forall in Hpre, Hbody, Hpost. cbn [app].
  assert (Hall : ∀ P : Z → Prop, P q →
            (∀ c, (c ≠ 34 ∧ c ≠ 39 ∧ c ≠ 96 ∧ c ≠ 36 ∧ c ≠ 60 ∧ c ≠ 62
                   ∧ c ≠ 123 ∧ c ≠ 125 ∧ c ≠ 40) → P c) →
            Forall P (pre ++ q :: body ++ q :: post)).
  { intros P Hq0 HP. repeat (rewrite ?Forall_app, ?Forall_cons).
    repeat split; try done;
      (eapply Forall_impl; [eassumption|]; intros c Hc; by apply HP). }
  assert (Hpart : ∀ P : Z → Prop,
            (∀ c, (c ≠ 34 ∧ c ≠ 39 ∧ c ≠ 96 ∧ c ≠ 36 ∧ c ≠ 60 ∧ c ≠ 62
                   ∧ c ≠ 123 ∧ c ≠ 125 ∧ c ≠ 40) → P c) →
            Forall P pre ∧ Forall P body ∧ Forall P post).
  { intros P HP. repeat split;
      (eapply Forall_impl; [eassumption|]; intros c Hc; by apply HP). }
  unfold js_chars, js_string_chars.
  rewrite findall_console_none
    by (apply Hall; [|intros; lia];
        repeat (apply elem_of_cons in Hq as [->|Hq]; [done|]);
        by apply elem_of_nil in Hq).
  rewrite findall_jsx_cannot_start
    by (apply Hall; [|intros; lia];
        repeat (apply elem_of_cons in Hq as [->|Hq]; [done|]);
        by apply elem_of_nil in Hq).
  unfold double_quote, single_quote, backtick in *.
  repeat (apply elem_of_cons in Hq as [->|Hq]; [|]);
    [| | |by apply elem_of_nil in Hq].
  - rewrite (findall_one_literal 34) by (apply Hpart; intros; lia).
    rewrite (findall_no_delimiter re_DOTALL 39)
      by (done || (apply Hall; [done|intros; lia])).
    rewrite (findall_no_delimiter re_DOTALL 96)
      by (done || (apply Hall; [done|intros; lia])).
    simpl. unfold set_update. by rewrite (left_id_L ∅ (∪)).
  - rewrite (findall_no_delimiter re_DOTALL 34)
      by (done || (apply Hall; [done|intros; lia])).
    rewrite (findall_one_literal 39) by (apply Hpart; intros; lia).
    rewrite (findall_no_delimiter re_DOTALL 96)
      by (done || (apply Hall; [done|intros; lia])).
    simpl. unfold set_update. by rewrite (left_id_L ∅ (∪)).
  - rewrite (findall_no_delimiter re_DOTALL 34)
      by (done || (apply Hall; [done|intros; lia])).
    rewrite (findall_no_delimiter re_DOTALL 39)
      by (done || (apply Hall; [done|intros; lia])).
    rewrite (findall_one_literal 96) by (apply Hpart; intros; lia).
    simpl. unfold re_sub.
    rewrite sub_unchanged
      by (done || (apply template_expr_cannot_start, Hpart; intros; lia)).
    unfold set_update. by rewrite (left_id_L ∅ (∪)).
Qed.

(** Text after a [>], up to the next [<]: the match takes it all, and
    the text is group 1. *)
Lemma match_jsx t post :
  t ≠ [] → Forall (λ c, c ≠ 60 ∧ c ≠ 123 ∧ c ≠ 9) t →
  match_at NOFLAG pat_jsx_text (62 :: t ++ 60 :: post) = Some (post, [(1%nat, t)]).
Proof.
  intros Hne Ht. destruct t as [|c t]; [done|].
  apply Forall_cons in Ht as [(Hc1 & Hc2 & Hc3) Ht].
  unfold match_at. simpl.
  change (chr "<") with 60. change (chr "{") with 123.
  unfold lit_match. simpl.
  rewrite (proj2 (Z.eqb_neq c 9)), (proj2 (Z.eqb_neq c 60)),
    (proj2 (Z.eqb_neq c 123)) by done. simpl.
  apply (rep_lazy_scan NOFLAG _ t (60 :: post)).
  - eapply Forall_impl; [exact Ht|]. intros d (Hd1 & Hd2 & Hd3). split.
    + simpl. unfold lit_match. simpl.
      change (chr "<") with 60. change (chr "{") with 123.
      by rewrite (proj2 (Z.eqb_neq d 60)), (proj2 (Z.eqb_neq d 123)).
    + intros tl. simpl. unfold lit_match. simpl.
      by rewrite (proj2 (Z.eqb_neq d 9)), (proj2 (Z.eqb_neq d 60)),
        (proj2 (Z.eqb_neq d 123)).
  - simpl. unfold set_group.
    replace (length (t ++ 60%Z :: post) - length post)%nat
      with (length (c :: t)) by (rewrite length_app; simpl; lia).
    change (c :: t ++ 60 :: post) with ((c :: t) ++ 60 :: post).
    by rewrite take_app_length.
Qed.

(** X10.  Text that follows a [>] and runs to the next [<] is collected
    as JSX text, although it is in no string literal. *)
Theorem jsx_text_is_collected (pre t post : str) :
  Forall (λ c, c ≠ 34 ∧ c ≠ 39 ∧ c ≠ 96 ∧ c ≠ 40 ∧ c ≠ 62 ∧ c ≠ 125) pre →
  t ≠ [] →
  Forall (λ c, c ≠ 34 ∧ c ≠ 39 ∧ c ≠ 96 ∧ c ≠ 40 ∧ c ≠ 60 ∧ c ≠ 123 ∧ c ≠ 9) t →
  Forall (λ c, c ≠ 34 ∧ c ≠ 39 ∧ c ≠ 96 ∧ c ≠ 40 ∧ c ≠ 60 ∧ c ≠ 123) post →
  js_chars (pre ++ u ">" ++ t ++ u "<" ++ post) = set_of_str t.
Proof.
  intros Hpre Hne Ht Hpost.
  change (u ">") with [62]. change (u "<") with [60]. cbn [app].
  assert (Hall : ∀ P : Z → Prop, P 62 → P 60 →
            (∀ c, (c ≠ 34 ∧ c ≠ 39 ∧ c ≠ 96 ∧ c ≠ 40) → P c) →
            Forall P (pre ++ 62 :: t ++ 60 :: post)).
  { intros P H62 H60 HP. repeat (rewrite ?Forall_app, ?Forall_cons).
    repeat split; try done;
      (eapply Forall_impl; [eassumption|]; intros c Hc; apply HP; simpl in Hc; tauto). }
  unfold js_chars, js_string_chars.
  rewrite findall_console_none by (apply Hall; intros; lia).
  rewrite !findall_no_delimiter
    by (done || (apply Hall; unfold double_quote, single_quote, backtick;
                 intros; lia)).
  assert (Hjsx : re_findall1 pat_jsx_text (pre ++ 62 :: t ++ 60 :: post) NOFLAG
                 = [t]).
  { unfold re_findall1.
    rewrite finditer_prefix; [|done|].
    2: { apply jsx_cannot_start. eapply Forall_impl; [exact Hpre|].
         intros c Hc. simpl in Hc. tauto. }
    change (62 :: t ++ 60 :: post) with (62 :: t ++ [60] ++ post).
    rewrite app_assoc.
    rewrite (finditer_hit _ _ 62 (t ++ [60]) post [(1%nat, t)]).
    - rewrite (finditer_none _ _ (λ c, c ≠ 60 ∧ c ≠ 123)); [done| |].
      + eapply Forall_impl; [exact Hpost|]. intros c Hc. simpl in Hc. tauto.
      + apply match_jsx_none.
    - rewrite <- app_assoc. apply match_jsx; [done|].
      eapply Forall_impl; [exact Ht|]. intros c Hc. simpl in Hc. tauto. }
  rewrite Hjsx. simpl. unfold set_update. by rewrite (left_id_L ∅ (∪)).
Qed.

(** A pass that only ever adds to [chars] adds the same to any [chars]. *)
Lemma foldl_adds {A} (step : gset str → A → gset str) (g : A → gset str)
    (l : list A) :
  (∀ chars x, step chars x = chars ∪ g x) →
  ∀ chars, foldl step chars l = chars ∪ foldl step ∅ l.
Proof.
  intros Hstep. induction l as [|x l IH]; intros chars; simpl.
  - by rewrite (right_id_L ∅ (∪)).
  - rewrite IH, (IH (step ∅ x)), !Hstep, (left_id_L ∅ (∪)).
    by rewrite (assoc_L (∪)).
Qed.

Lemma foldl_set_update_adds (l : list str) (chars : gset str) :
  foldl set_update chars l = chars ∪ foldl set_update ∅ l.
Proof. by apply (foldl_adds set_update set_of_str). Qed.

(** The set returned for a script is the union of what the five passes
    add. *)
Lemma js_chars_passes (js_content : str) :
  js_chars js_content
  = quoted_chars double_quote js_content ∪ quoted_chars single_quote js_content
    ∪ template_chars js_content ∪ jsx_chars js_content
    ∪ console_chars js_content.
Proof.
  unfold js_chars, js_string_chars, quoted_chars, template_chars, jsx_chars,
    console_chars.
  rewrite (foldl_adds _
             (λ lm, foldl set_update ∅
                      (re_findall1 (pat_string double_quote) lm.2 NOFLAG
                         ++ re_findall1 (pat_string single_quote) lm.2 NOFLAG)))
    by (intros chars lm; apply foldl_set_update_adds).
  rewrite (foldl_set_update_adds (re_findall1 pat_jsx_text _ _)).
  rewrite (foldl_adds _
             (λ mtch, set_of_str (re_sub pat_template_expr [] mtch NOFLAG)))
    by done.
  rewrite (foldl_set_update_adds (re_findall1 (pat_string single_quote) _ _)).
  done.
Qed.

(** No embedded expression begins at a dollar sign that no brace
    follows, nor anywhere else but at a dollar sign. *)
Lemma match_template_expr_none c rest :
  c ≠ 36 ∨ match rest with d :: _ => d ≠ 123 | [] => True end →
  match_at NOFLAG pat_template_expr (c :: rest) = None.
Proof.
  intros H. unfold match_at. simpl.
  change (chr "$") with 36. change (chr "{") with 123.
  unfold lit_match. cbn [IGNORECASE NOFLAG].
  destruct (Z.eqb_spec c 36) as [->|Hc]; [|done].
  destruct H as [H|H]; [done|].
  destruct rest as [|d rest]; [done|].
  by rewrite (proj2 (Z.eqb_neq d 123)).
Qed.

(** Text that opens no embedded expression is kept as it is. *)
Lemma sub_text text : ∀ y,
  opens_expr text = false →
  match y with d :: _ => d ≠ 123 | [] => True end →
  sub_from NOFLAG pat_template_expr [] O (text ++ y)
  = text ++ sub_from NOFLAG pat_template_expr [] O y.
Proof.
  induction text as [|c text IH]; intros y Ht Hy; [done|].
  cbn [opens_expr] in Ht. apply orb_false_elim in Ht as [Hc Ht].
  cbn [app sub_from]. rewrite match_template_expr_none.
  - f_equal. by apply IH.
  - destruct (decide (c = 36)) as [->|Hne]; [right|by left].
    destruct text as [|d text]; cbn [app]; [exact Hy|].
    rewrite Z.eqb_refl in Hc. simpl in Hc. by apply Z.eqb_neq.
Qed.

(** One embedded expression is removed, and the removal goes on behind
    its closing brace. *)
Lemma sub_template_step a e tail :
  opens_expr a = false → Forall (λ c, c ≠ 125 ∧ c ≠ 10) e →
  re_sub pat_template_expr [] (a ++ 36 :: 123 :: e ++ 125 :: tail) NOFLAG
  = a ++ re_sub pat_template_expr [] tail NOFLAG.
Proof.
  intros Ha He. unfold re_sub.
  rewrite sub_text by done.
  f_equal.
  change (36 :: 123 :: e ++ 125 :: tail) with (36 :: (123 :: e) ++ [125] ++ tail).
  rewrite app_assoc.
  rewrite (sub_hit _ _ [] 36 ((123 :: e) ++ [125]) tail []); [done|].
  rewrite <- app_assoc. by apply match_template_expr.
Qed.

Lemma template_body_nil text : template_body text [] = text.
Proof. unfold template_body. cbn [fmap list_fmap concat]. apply app_nil_r. Qed.

Lemma template_body_cons text e a more :
  template_body text ((e, a) :: more)
  = text ++ 36 :: 123 :: e ++ 125 :: template_body a more.
Proof.
  unfold template_body. rewrite fmap_cons. cbn [concat fst snd].
  change (u "${") with [36; 123]. change (u "}") with [125]. reassoc.
Qed.

Lemma template_text_nil text : template_text text [] = text.
Proof. unfold template_text. cbn [fmap list_fmap concat]. apply app_nil_r. Qed.

Lemma template_text_cons text e a more :
  template_text text ((e, a) :: more) = text ++ template_text a more.
Proof. unfold template_text. rewrite fmap_cons. by cbn [concat snd]. Qed.

(** The embedded expressions of a template literal's body are removed,
    and its text is kept. *)
Lemma sub_template_body (more : list (str * str)) : ∀ text,
  opens_expr text = false →
  Forall (λ p, Forall (λ c, c ≠ 125 ∧ c ≠ 10) p.1 ∧ opens_expr p.2 = false)
         more →
  re_sub pat_template_expr [] (template_body text more) NOFLAG
  = template_text text more.
Proof.
  induction more as [|[e a] more IH]; intros text Ht Hm.
  - rewrite template_body_nil, template_text_nil. unfold re_sub.
    rewrite <- (app_nil_r text) at 1. rewrite sub_text by done.
    simpl. by rewrite app_nil_r.
  - apply Forall_cons in Hm as [[He Ha] Hm]. cbn [fst snd] in He, Ha.
    rewrite template_body_cons, template_text_cons.
    rewrite sub_template_step by done. by rewrite IH.
Qed.

(** The first template literal of a script is matched from its opening
    backtick to the next one. *)
Lemma template_chars_first pre body post :
  Forall (λ c, c ≠ 96) pre → Forall (λ c, c ≠ 96) body →
  template_chars (pre ++ 96 :: body ++ 96 :: post)
  = set_of_str (re_sub pat_template_expr [] body NOFLAG) ∪ template_chars post.
Proof.
  intros Hpre Hbody. unfold template_chars, re_findall1.
  rewrite finditer_prefix
    by (done || by apply (string_cannot_start re_DOTALL backtick)).
  change (96 :: body ++ 96 :: post) with (96 :: body ++ [96] ++ post).
  rewrite app_assoc.
  rewrite (finditer_hit _ _ 96 (body ++ [96]) post [(1%nat, body)]).
  - rewrite fmap_cons. cbn [foldl group Nat.eqb].
    rewrite (foldl_adds _
               (λ mtch, set_of_str (re_sub pat_template_expr [] mtch NOFLAG)))
      by done.
    unfold set_update. by rewrite (left_id_L ∅ (∪)).
  - rewrite <- app_assoc. apply (match_string re_DOTALL backtick); [done|].
    eapply Forall_impl; [exact Hbody|]. by intros c Hc.
Qed.

Lemma template_body_chars (P : Z → Prop) more : ∀ text,
  P 36 → P 123 → P 125 →
  Forall P text → Forall (λ p, Forall P p.1 ∧ Forall P p.2) more →
  Forall P (template_body text more).
Proof.
  induction more as [|[e a] more IH]; intros text H36 H123 H125 Ht Hm.
  - by rewrite template_body_nil.
  - apply Forall_cons in Hm as [[He Ha] Hm]. cbn [fst snd] in He, Ha.
    rewrite template_body_cons.
    apply Forall_app. split; [done|].
    do 2 (apply Forall_cons; split; [done|]).
    apply Forall_app. split; [done|]. apply Forall_cons. split; [done|].
    by apply IH.
Qed.

(** C5, amended.  Take any script, and in it the first template
    literal: nothing before it holds a backtick, and anything may come
    after it.  Its text is broken by any number of embedded expressions;
    the pieces of text hold no backtick and open no expression
    themselves, and the expressions have no closing brace, backtick or
    line break of their own.  The literal adds exactly the characters of
    its own text.  All else in the set returned is what the template
    literals after it add, and what the other patterns find anywhere in
    the file, inside the literal and its expressions included: strings
    between double or single quotes, JSX text, and strings in the
    arguments of logging calls.  A character of an embedded expression is
    returned only when one of these finds it. *)
Theorem js_template_text_only (pre text post : str) (more : list (str * str)) :
  96 ∉ pre →
  96 ∉ text → opens_expr text = false →
  Forall (λ p, Forall (λ c, c ≠ 96 ∧ c ≠ 125 ∧ c ≠ 10) p.1
               ∧ (96 ∉ p.2) ∧ opens_expr p.2 = false) more →
  let js_content := pre ++ u "`" ++ template_body text more ++ u "`" ++ post in
  js_chars js_content
  = set_of_str (template_text text more)
    ∪ (template_chars post
       ∪ quoted_chars double_quote js_content
       ∪ quoted_chars single_quote js_content
       ∪ jsx_chars js_content ∪ console_chars js_content).
Proof.
  intros Hpre Htext Hopen Hmore js_content.
  assert (Hbody : Forall (λ c, c ≠ 96) (template_body text more)).
  { apply template_body_chars; try done; [by apply not_elem_Forall|].
    eapply Forall_impl; [exact Hmore|]. intros [e a] (He & Ha & _). simpl in *.
    split; [|by apply not_elem_Forall].
    eapply Forall_impl; [exact He|]. intros c Hc. simpl in Hc. tauto. }
  rewrite js_chars_passes.
  assert (Htpl : template_chars js_content
                 = set_of_str (template_text text more) ∪ template_chars post).
  { unfold js_content. change (u "`") with [96]. cbn [app].
    rewrite template_chars_first by (done || by apply not_elem_Forall).
    rewrite sub_template_body; [done|done|].
    eapply Forall_impl; [exact Hmore|]. intros [e a] (He & _ & Ha). simpl in *.
    split; [|done].
    eapply Forall_impl; [exact He|]. intros c Hc. simpl in Hc. tauto. }
  rewrite Htpl. apply set_eq. intros x. rewrite !elem_of_union. tauto.
Qed.

(** * More about the scan and the pipeline *)

Section PipelineMore.
Context `{FT : FontTools}.
Implicit Types (w : World) (char_set : gset str).

Lemma elem_of_code_points (n : Z) (chars : list str) :
  n ∈ ⋃ (code_point <$> chars) ↔ [n] ∈ chars.
Proof.
  rewrite elem_of_union_list. split.
  - intros (X & (char & -> & Hchar)%list_elem_of_fmap & Hn).
    destruct char as [|c [|d char]]; simpl in Hn;
      [by apply not_elem_of_empty in Hn| |by apply not_elem_of_empty in Hn].
    by apply elem_of_singleton in Hn as ->.
  - intros Hin. exists {[ n ]}. split; [|by apply elem_of_singleton].
    apply list_elem_of_fmap. by exists [n].
Qed.

Lemma elem_of_unicode_set_of (n : Z) char_set :
  n ∈ unicode_set_of char_set ↔ [n] ∈ char_set ∨ n ∈ basic_chars.
Proof.
  unfold unicode_set_of. rewrite elem_of_union, elem_of_code_points.
  by rewrite elem_of_elements.
Qed.

(** X11.  The loop that fills [unicode_set] never raises: it ends with
    exactly the code points of the one-character strings of [char_set],
    and every other element of [char_set] is passed over with a warning in
    the log. *)
Theorem unicode_set_loop char_set w :
  let res := for_each add_ord ∅ (elements char_set) w in
  ∃ U, res.2 = inr U
    ∧ (∀ n, n ∈ U ↔ [n] ∈ char_set)
    ∧ (∀ char, char ∈ char_set → length char ≠ 1%nat →
         (WARNING, MsgSkipChar char TypeError) ∈ log res.1)
    ∧ files res.1 = files w ∧ fonts res.1 = fonts w.
Proof.
  intros res. subst res. rewrite add_ords_run. simpl.
  eexists. split; [done|]. split; [|split; [|done]].
  - intros n. rewrite (left_id_L ∅ (∪)), elem_of_code_points.
    by rewrite elem_of_elements.
  - intros char Hin Hlen. apply elem_of_app. right.
    apply list_elem_of_bind. exists char. split; [|by apply elem_of_elements].
    destruct char as [|c [|d char]]; simpl in *; [|done|];
      by apply list_elem_of_singleton.
Qed.

(** X12.  The font is closed only at the end of a run in which every
    step succeeded, and [save_font] is called only after the font was
    loaded and subset without an exception: a failed run leaves the font
    object open and, unless the failure is that of [save_font] itself,
    never reaches the output path. *)
Theorem close_and_save_only_after_success (font_path output_path : str)
    char_set w :
  let res := create_font_subset font_path output_path char_set w in
  let a := fresh (dom (fonts w)) in
  let U := unicode_set_of char_set in
  ∃ new,
    calls res.1 = calls w ++ new
    ∧ (CallClose a ∈ new ↔ res.2 = inr tt)
    ∧ (CallSaveFont a output_path fixed_options ∈ new ↔
       ∃ f0 f1, TTFont (files w) font_path = inr f0
                ∧ Subsetter_subset fixed_options U f0 = (f1, None)).
Proof.
  intros res a U.
  pose proof (create_font_subset_run font_path output_path char_set w) as Hrun.
  cbv zeta in Hrun. fold res a U in Hrun.
  destruct (TTFont (files w) font_path) as [e|f0].
  { destruct Hrun as (Hr & _ & _ & Hc). eexists. split; [exact Hc|]. rewrite Hr.
    split; split.
    - intros Hin%list_elem_of_singleton. done.
    - done.
    - intros Hin%list_elem_of_singleton. done.
    - intros (f0 & f1 & ? & _). done. }
  destruct (Subsetter_subset _ _ f0) as [f1 [e1|]] eqn:Hsub.
  { destruct Hrun as (Hr & _ & _ & Hc). eexists. split; [exact Hc|]. rewrite Hr.
    split; split; try done.
    - intros Hin. repeat (apply elem_of_cons in Hin as [Hin|Hin]; [done|]).
      by apply elem_of_nil in Hin.
    - intros Hin. repeat (apply elem_of_cons in Hin as [Hin|Hin]; [done|]).
      by apply elem_of_nil in Hin.
    - intros (f0' & f1' & [= <-] & Hsub'). rewrite Hsub in Hsub'. done. }
  destruct (save_font f1 _ _ _) as [[f2 fs'] [e2|]];
    destruct Hrun as (Hr & _ & _ & Hc); (eexists; split; [exact Hc|]); rewrite Hr.
  - split; split; try done.
    + intros Hin. repeat (apply elem_of_cons in Hin as [Hin|Hin]; [done|]).
      by apply elem_of_nil in Hin.
    + intros _. by exists f0, f1.
    + intros _. do 2 (apply elem_of_cons; right). apply elem_of_cons. by left.
  - split; split; try done.
    + intros _. do 3 (apply elem_of_cons; right). apply elem_of_cons. by left.
    + intros _. by exists f0, f1.
    + intros _. do 2 (apply elem_of_cons; right). apply elem_of_cons. by left.
Qed.
End PipelineMore.

Section RunMore.
Context `{FT : FontTools}.
Implicit Types (w : World).

Lemma elem_of_add_kept_chars (n : Z) (chars : gset str) (keep : str) :
  [n] ∈ add_kept_chars chars keep
  ↔ [n] ∈ chars ∨ n ∈ digits ++ ascii_letters ++ punctuation ∨ n ∈ keep.
Proof.
  assert (Hone : ∀ text, [n] ∈ set_of_str text ↔ n ∈ text).
  { intros text. rewrite elem_of_set_of_str. split.
    - by intros (c & [= ->] & Hc).
    - intros Hn. by exists n. }
  unfold add_kept_chars, set_update. case_decide as Hkeep.
  - subst keep. rewrite elem_of_union, Hone. split; [tauto|].
    intros [?|[?|Hnil]]; [tauto..|]. by apply elem_of_nil in Hnil.
  - rewrite !elem_of_union, !Hone. tauto.
Qed.

(** X13.  When the scan returns and the font loads, a run calls the
    subsetter with exactly these code points: the characters the scan
    collected, the digits, ASCII letters and punctuation, the characters
    of [--keep], and space, newline, tab and carriage return. *)
Theorem run_subsets_to_collected_and_kept (args : Args) w (f0 : Font)
    (chars : gset str) :
  (collect_chars_from_directory (arg_directory args) w).2 = inr chars →
  TTFont (files w) (arg_font args) = inr f0 →
  chars = ⋃ (chars_of w <$> (rglob w (arg_directory args)).1)
  ∧ ∃ U a,
      CallSubset fixed_options U a ∈ calls (main args w).1
      ∧ ∀ n, n ∈ U ↔
          [n] ∈ chars
          ∨ n ∈ digits ++ ascii_letters ++ punctuation
          ∨ n ∈ arg_keep args
          ∨ n ∈ [32; 10; 9; 13].
Proof.
  intros Hscan Hload.
  split; [by apply collect_returns in Hscan as [_ ->]|].
  pose proof (main_run args w) as Hmain. rewrite Hscan in Hmain.
  destruct Hmain as (w1 & Hf & Hfonts & Hc & Hmain).
  cbv zeta in Hmain. destruct Hmain as (Hcalls & _ & _).
  set (char_set := add_kept_chars chars (arg_keep args)) in *.
  pose proof (create_font_subset_run (arg_font args) (arg_output args)
                char_set w1) as Hrun.
  cbv zeta in Hrun. rewrite Hf, Hload in Hrun.
  exists (unicode_set_of char_set), (fresh (dom (fonts w1))).
  split.
  - rewrite Hcalls.
    destruct (Subsetter_subset _ _ f0) as [f1 [e1|]].
    { destruct Hrun as (_ & _ & _ & ->). apply elem_of_app. right.
      apply elem_of_cons. right. apply elem_of_cons. by left. }
    destruct (save_font f1 _ _ _) as [[f2 fs'] [e2|]];
      destruct Hrun as (_ & _ & _ & ->); apply elem_of_app; right;
      apply elem_of_cons; right; apply elem_of_cons; by left.
  - intros n. rewrite elem_of_unicode_set_of. unfold char_set.
    rewrite elem_of_add_kept_chars. unfold basic_chars.
    rewrite !elem_of_union, !elem_of_singleton, !elem_of_cons, elem_of_nil.
    tauto.
Qed.

(** X14.  Every element of the set a scan returns is one character
    that occurs in the text of a file of the directory that could be read
    and decoded, or is the space put before attribute values. *)
Theorem collected_chars_come_from_files (directory : str) w
    (chars : gset str) (x : str) :
  (collect_chars_from_directory directory w).2 = inr chars →
  x ∈ chars →
  ∃ entry text c,
    entry ∈ (rglob w directory).1 ∧ entry_is_file entry = inr true
    ∧ read_decode (files w) (entry_path entry) = inr text
    ∧ x = [c] ∧ (c ∈ text ∨ c = 32).
Proof.
  intros [_ ->]%collect_returns.
  intros (X & (entry & -> & Hentry)%list_elem_of_fmap & Hx)%elem_of_union_list.
  unfold chars_of, outcome, extraction in Hx.
  destruct (entry_is_file entry) as [err|[]] eqn:Hfile;
    [by apply not_elem_of_empty in Hx| |by apply not_elem_of_empty in Hx].
  repeat case_decide; simpl in Hx;
    [| |by apply not_elem_of_empty in Hx].
  - rewrite extract_html_run in Hx. simpl in Hx.
    destruct (read_decode _ _) as [err|text] eqn:Hread;
      [by apply not_elem_of_empty in Hx|].
    apply html_chars_from_text in Hx as (c & -> & Hc).
    by exists entry, text, c.
  - rewrite extract_js_run in Hx. simpl in Hx.
    destruct (read_decode _ _) as [err|text] eqn:Hread;
      [by apply not_elem_of_empty in Hx|].
    apply js_chars_from_text in Hx as (c & -> & Hc).
    exists entry, text, c. tauto.
Qed.

(** X15.  The two sizes of the report are read after the font has been
    written.  When the output path is the input path, a run that
    completes therefore reports the same size twice, whatever the font
    was before. *)
Theorem same_path_reports_equal_sizes (args : Args) w w' :
  arg_output args = arg_font args →
  main args w = (w', inr tt) →
  ∃ data,
    files w' !! arg_font args = Some data
    ∧ last (log w')
      = Some (INFO, MsgReduced (Z.of_nat (length data)) (Z.of_nat (length data))).
Proof.
  intros Hpath. unfold main, mbind, M_bind, bind, logging.
  rewrite Hpath.
  destruct (collect_chars_from_directory _ _) as [w1 [e|chars]]; [done|].
  destruct (create_font_subset _ _ _ _) as [w2 [e|[]]]; simpl; [done|].
  unfold stat_size.
  destruct (files w2 !! arg_font args) as [data|] eqn:Hdata; simpl; [|done].
  rewrite Hdata. simpl.
  destruct (_ =? 0); simpl; [done|].
  intros [= <-]. simpl. exists data. split; [done|]. by rewrite last_snoc.
Qed.
End RunMore.

(** * Which files the scan reads *)

Lemma path_name_fold (name : str) : ∀ acc,
  47 ∉ name →
  foldl (λ acc c, if c =? 47 then [] else acc ++ [c]) acc name = acc ++ name.
Proof.
  induction name as [|c name IH]; intros acc Hno; simpl.
  - by rewrite app_nil_r.
  - apply not_elem_of_cons in Hno as [Hc Hno].
    rewrite (proj2 (Z.eqb_neq c 47)) by done.
    rewrite IH by done. by rewrite <- app_assoc.
Qed.

Lemma path_name_last (d name : str) :
  47 ∉ name → path_name (d ++ [47] ++ name) = name.
Proof.
  intros Hno. unfold path_name. rewrite foldl_app. simpl.
  by rewrite path_name_fold.
Qed.

Lemma rfind_dot_none (s : str) : 46 ∉ s → rfind_dot s = None.
Proof.
  induction s as [|c s IH]; [done|]. intros [Hc Hs]%not_elem_of_cons. simpl.
  rewrite IH by done. by rewrite (proj2 (Z.eqb_neq c 46)).
Qed.

Lemma rfind_dot_last (stem ext : str) :
  46 ∉ ext → rfind_dot (stem ++ [46] ++ ext) = Some (length stem).
Proof.
  intros Hext. induction stem as [|c stem IH]; simpl.
  - by rewrite rfind_dot_none.
  - simpl in IH. by rewrite IH.
Qed.

(** The suffix of a path is what follows the last dot of its last
    component, dot included, when something comes before that dot and
    something after it. *)
Lemma path_suffix_last (d stem ext : str) :
  stem ≠ [] → ext ≠ [] → 47 ∉ stem → 47 ∉ ext → 46 ∉ ext →
  path_suffix (d ++ [47] ++ stem ++ [46] ++ ext) = 46 :: ext.
Proof.
  intros Hstem Hext H1 H2 H3. unfold path_suffix.
  rewrite path_name_last.
  2: { rewrite !not_elem_of_app, not_elem_of_cons.
       repeat split; try done. apply not_elem_of_nil. }
  rewrite rfind_dot_last by done.
  rewrite !length_app. simpl.
  destruct stem as [|c stem]; [done|]. destruct ext as [|x ext]; [done|].
  simpl length.
  assert (Hlt : (S (length stem) <? S (length stem) + S (S (length ext)) - 1)%nat
                = true) by (apply Nat.ltb_lt; lia).
  assert (Hpos : (0 <? S (length stem))%nat = true) by (by apply Nat.ltb_lt; lia).
  rewrite Hpos, Hlt. simpl andb. cbv iota.
  change (S (length stem)) with (length (c :: stem)).
  by rewrite drop_app_length.
Qed.

(** A name that begins with its only dot has no suffix. *)
Lemma path_suffix_dotfile (d ext : str) :
  47 ∉ ext → 46 ∉ ext → path_suffix (d ++ [47; 46] ++ ext) = [].
Proof.
  intros H1 H2. unfold path_suffix.
  change (d ++ [47; 46] ++ ext) with (d ++ [47] ++ (46 :: ext)).
  rewrite path_name_last
    by (rewrite not_elem_of_cons; split; done).
  simpl. by rewrite rfind_dot_none.
Qed.

Lemma lower_cons c s :
  lower (c :: s) = (if (0x41 <=? c) && (c <=? 0x5A) then c + 32 else c) :: lower s.
Proof. reflexivity. Qed.

Section ScanMore.
Context `{FT : FontTools}.
Implicit Types (w : World) (e : DirEntry).

(** X16.  A file whose last extension is [html] in any mix of upper and
    lower case, and which can be read, is scanned as HTML: its characters
    are added, it is counted, and nothing is logged. *)
Theorem html_file_is_scanned st e w (d stem ext text : str) :
  entry_is_file e = inr true →
  entry_path e = d ++ [47] ++ stem ++ [46] ++ ext →
  stem ≠ [] → 47 ∉ stem → 47 ∉ ext → 46 ∉ ext →
  lower ext = u "html" →
  read_decode (files w) (entry_path e) = inr text →
  scan_entry st e w = (w, inr (st.1 ∪ html_chars text, S st.2)).
Proof.
  intros Hfile Hpath Hstem H1 H2 H3 Hext Hread.
  assert (Hne : ext ≠ []) by (by intros ->).
  assert (Hsfx : lower (path_suffix (entry_path e)) = u ".html").
  { rewrite Hpath, path_suffix_last, lower_cons, Hext by done. reflexivity. }
  rewrite (scan_entry_run _ _ _ true Hfile).
  unfold warning_of, chars_of, counted, outcome, extraction.
  rewrite Hfile, Hsfx. rewrite decide_True by done. simpl.
  rewrite extract_html_run, Hread. simpl.
  by rewrite add_logs_nil, Nat.add_1_r.
Qed.

(** X17.  A file whose last extension is [js], [jsx], [ts], [tsx] or
    [json], in any case, and which can be read, is scanned as a
    script. *)
Theorem script_file_is_scanned st e w (d stem ext text : str) :
  entry_is_file e = inr true →
  entry_path e = d ++ [47] ++ stem ++ [46] ++ ext →
  stem ≠ [] → 47 ∉ stem → 47 ∉ ext → 46 ∉ ext →
  lower ext ∈ [u "js"; u "jsx"; u "ts"; u "tsx"; u "json"] →
  read_decode (files w) (entry_path e) = inr text →
  scan_entry st e w = (w, inr (st.1 ∪ js_chars text, S st.2)).
Proof.
  intros Hfile Hpath Hstem H1 H2 H3 Hext Hread.
  assert (Hne : ext ≠ []).
  { intros ->. simpl in Hext.
    repeat (apply elem_of_cons in Hext as [Hext|Hext]; [done|]).
    by apply elem_of_nil in Hext. }
  assert (Hsfx : lower (path_suffix (entry_path e)) = 46 :: lower ext).
  { by rewrite Hpath, path_suffix_last, lower_cons by done. }
  assert (Hscript : 46 :: lower ext ∈ script_exts ∧ 46 :: lower ext ≠ u ".html").
  { repeat (apply elem_of_cons in Hext as [->|Hext];
            [split; [apply (bool_decide_unpack _); by vm_compute|done]|]).
    by apply elem_of_nil in Hext. }
  destruct Hscript as [Hin Hnot].
  rewrite (scan_entry_run _ _ _ true Hfile).
  unfold warning_of, chars_of, counted, outcome, extraction.
  rewrite Hfile, Hsfx. rewrite decide_False, decide_True by done. simpl.
  rewrite extract_js_run, Hread. simpl.
  by rewrite add_logs_nil, Nat.add_1_r.
Qed.

(** X18.  An entry whose name is a dot followed by an extension, such as
    [.html] or [.json], has no suffix for the scan: once [is_file()] has
    returned for it, it is not read, not counted and not reported, whether
    it is a file or not and whether it could be read or not. *)
Theorem dotfile_is_not_scanned st e w (d ext : str) (is_a_file : bool) :
  entry_is_file e = inr is_a_file →
  entry_path e = d ++ [47; 46] ++ ext → 47 ∉ ext → 46 ∉ ext →
  scan_entry st e w = (w, inr st).
Proof.
  intros Hfile Hpath H1 H2. rewrite (scan_entry_run _ _ _ _ Hfile).
  unfold warning_of, chars_of, counted, outcome, extraction.
  rewrite Hfile, Hpath, path_suffix_dotfile by done.
  destruct is_a_file; simpl;
    rewrite add_logs_nil, (right_id_L ∅ (∪)), Nat.add_0_r; by destruct st.
Qed.
End ScanMore.

(** * What reading a file gives *)

Lemma universal_newlines_no_cr_upto (n : nat) : ∀ s : str,
  (length s ≤ n)%nat → 13 ∉ universal_newlines s.
Proof.
  induction n as [|n IH]; intros s Hlen.
  - destruct s; [apply not_elem_of_nil|simpl in Hlen; lia].
  - destruct s as [|c s]; [apply not_elem_of_nil|]. simpl in Hlen. simpl.
    destruct (c =? 13) eqn:Hc.
    + apply not_elem_of_cons. split; [done|].
      destruct s as [|d s]; [apply not_elem_of_nil|]. simpl in Hlen.
      destruct (d =? 10); apply IH; simpl; lia.
    + apply not_elem_of_cons. split; [by apply Z.eqb_neq in Hc|].
      apply IH. lia.
Qed.

(** X19.  Text read from a file never holds a carriage return: the two
    bytes CR LF and a CR on its own both arrive as a line feed. *)
Theorem read_text_has_no_carriage_return (fs : gmap str bytes)
    (file_path text : str) :
  read_decode fs file_path = inr text → 13 ∉ text.
Proof.
  unfold read_decode. destruct (fs !! file_path) as [bs|]; [|done].
  destruct (utf8_decode bs) as [s|]; [|done]. intros [= <-].
  by apply (universal_newlines_no_cr_upto (length s)).
Qed.

(** * What an inline style adds *)

Section GreedyBack.
Context (fl : flags) {R : Type}.

(** A greedy repetition fails when the rest of the pattern fails at its
    end and cannot begin with any character it might give back. *)
Lemma rep_greedy_all_fail cs b tail (k : str → option R) :
  Forall (λ x, ∀ t, k (x :: t) = None) b → k tail = None →
  match tail with [] => True | x :: _ => cs_match fl cs x = false end →
  rep_greedy fl cs (b ++ tail) O k = None.
Proof.
  intros Hb Hk Htail. induction Hb as [|x b Hx Hb IH]; simpl.
  - destruct tail as [|y tail]; simpl; [done|]. by rewrite Htail.
  - rewrite IH, Hx. by destruct (cs_match _ _ _).
Qed.

(** A greedy repetition runs to the first character that does not fit,
    then gives characters back until the rest of the pattern matches:
    here it gives back [c :: b]. *)
Lemma rep_greedy_back cs a c b tail (k : str → option R) res : ∀ min,
  Forall (λ x, cs_match fl cs x = true) a → cs_match fl cs c = true →
  (min ≤ length a)%nat →
  Forall (λ x, ∀ t, k (x :: t) = None) b → k tail = None →
  match tail with [] => True | x :: _ => cs_match fl cs x = false end →
  k (c :: b ++ tail) = Some res →
  rep_greedy fl cs (a ++ c :: b ++ tail) min k = Some res.
Proof.
  intros min Ha. revert min.
  induction Ha as [|x a Hx Ha IH]; intros min Hc Hmin Hb Hk Htail Hres;
    simpl in *.
  - assert (min = O) as -> by lia. simpl.
    by rewrite Hc, rep_greedy_all_fail.
  - rewrite Hx, IH; [done|done|lia|done..].
Qed.
End GreedyBack.

Lemma is_space_not_mark c :
  is_space c = true →
  c ≠ 34 ∧ c ≠ 39 ∧ c ≠ 61 ∧ c ≠ 62 ∧ c ≠ 92 ∧ c ≠ 99 ∧ c ≠ 67.
Proof. unfold is_space. lia. Qed.

(** An inline style that declares [content:] with a quoted value: the
    match runs from [style] to the quote that closes the value, and the
    value is group 1. *)
Lemma match_style_content q0 q1 q2 pre sp val rest :
  q0 ∈ [34; 39] → q1 ∈ [34; 39] → q2 ∈ [34; 39] →
  Forall (λ c, c ≠ 34 ∧ c ≠ 39) pre →
  Forall (λ c, is_space c = true) sp →
  Forall (λ c, c ≠ 34 ∧ c ≠ 39 ∧ c ≠ 10) val →
  match_at re_IGNORECASE pat_style_content
    (u "style=" ++ q0 :: pre ++ u "content:" ++ sp ++ q1 :: val ++ q2 :: rest)
  = Some (rest, [(1%nat, val)]).
Proof.
  intros Hq0 Hq1 Hq2 Hpre Hsp Hval.
  assert (Hq0' : q0 = 34 ∨ q0 = 39).
  { repeat (apply elem_of_cons in Hq0 as [->|Hq0]; [tauto|]).
    by apply elem_of_nil in Hq0. }
  assert (Hq1' : q1 = 34 ∨ q1 = 39).
  { repeat (apply elem_of_cons in Hq1 as [->|Hq1]; [tauto|]).
    by apply elem_of_nil in Hq1. }
  assert (Hq2' : q2 = 34 ∨ q2 = 39).
  { repeat (apply elem_of_cons in Hq2 as [->|Hq2]; [tauto|]).
    by apply elem_of_nil in Hq2. }
  change (u "style=") with [115; 116; 121; 108; 101; 61].
  change (u "content:") with [99; 111; 110; 116; 101; 110; 116; 58].
  unfold match_at.
  assert (Hnq : ∀ c, c ≠ 34 ∧ c ≠ 39 → cs_match re_IGNORECASE not_quote c = true).
  { intros c [Hc1 Hc2]. simpl. unfold lit_match. simpl.
    rewrite !ci_match_not_letter by done.
    by rewrite (proj2 (Z.eqb_neq c 34)), (proj2 (Z.eqb_neq c 39)). }
  assert (Hnc : ∀ c, c ≠ 99 ∧ c ≠ 67 → lit_match re_IGNORECASE 99 c = false).
  { intros c [Hc1 Hc2]. unfold lit_match, ci_match, is_ascii_lower.
    cbn [IGNORECASE re_IGNORECASE]. lia. }
  assert (Htake : take (length (val ++ q2 :: rest) - S (length rest))
                    (val ++ q2 :: rest) = val).
  { change (S (length rest)) with (length (q2 :: rest)). apply take_consumed. }
  assert (Hsp1 : Forall (λ c, cs_match re_IGNORECASE space c = true) sp).
  { eapply Forall_impl; [exact Hsp|]. intros c Hc. simpl. by rewrite Hc. }
  assert (Hsp2 : Forall (λ c, lit_match re_IGNORECASE 99 c = false) sp).
  { eapply Forall_impl; [exact Hsp|]. intros c Hc. apply Hnc.
    apply is_space_not_mark in Hc. tauto. }
  assert (Hdot : Forall (λ c, cs_match re_IGNORECASE Dot c = true
                              ∧ lit_match re_IGNORECASE 34 c = false
                              ∧ lit_match re_IGNORECASE 39 c = false) val).
  { eapply Forall_impl; [exact Hval|]. intros c (Hc1 & Hc2 & Hc3).
    unfold lit_match. simpl. rewrite !ci_match_not_letter by done.
    by rewrite (proj2 (Z.eqb_neq c 10)), (proj2 (Z.eqb_neq c 34)),
      (proj2 (Z.eqb_neq c 39)). }
  destruct Hq0' as [-> | ->], Hq1' as [-> | ->]; simpl.
  all: apply (rep_greedy_back re_IGNORECASE not_quote pre 99
                ([111; 110; 116; 101; 110; 116; 58] ++ sp)
                (_ :: val ++ q2 :: rest)).
  all: try (eapply Forall_impl; [exact Hpre|]; intros c Hc; by apply Hnq).
  all: try reflexivity.
  all: try (simpl; lia).
  all: try (apply Forall_app; split;
            [repeat (apply Forall_cons; split; [intros t; reflexivity|]);
             by apply Forall_nil
            |eapply Forall_impl; [exact Hsp2|]; intros c Hc t;
             change (chr "c") with 99; by rewrite Hc]).
  all: simpl.
  all: apply (rep_greedy_scan re_IGNORECASE space sp (_ :: val ++ q2 :: rest));
    [exact Hsp1|simpl; lia|reflexivity|].
  all: simpl.
  all: apply (rep_lazy_scan re_IGNORECASE Dot val (q2 :: rest)).
  all: try (eapply Forall_impl; [exact Hdot|]; intros c (Hc1 & Hc2 & Hc3);
            split; [exact Hc1|]; intros t; by rewrite Hc2, Hc3).
  all: destruct Hq2' as [-> | ->]; simpl.
  all: unfold set_group; by rewrite Htake.
Qed.

(** No attribute of the five begins in the text [<p style=]. *)
Lemma finditer_attr_style_prefix tl :
  finditer_from re_IGNORECASE pat_attr O (u "<p style=" ++ tl)
  = finditer_from re_IGNORECASE pat_attr O tl.
Proof. reflexivity. Qed.

(** X20.  The value of a [content:] declaration in an inline style is
    collected, whatever is declared before it and whichever quotes are
    used; the tag around it is dropped. *)
Theorem style_content_is_collected (pre sp val : str) (q0 q1 q2 q3 : Z) :
  Forall (λ q, q ∈ [34; 39]) [q0; q1; q2; q3] →
  Forall (λ c, c ≠ 34 ∧ c ≠ 39 ∧ c ≠ 61 ∧ c ≠ 62 ∧ c ≠ 92) pre →
  Forall (λ c, is_space c = true) sp →
  Forall (λ c, c ≠ 34 ∧ c ≠ 39 ∧ c ≠ 10 ∧ c ≠ 61 ∧ c ≠ 62 ∧ c ≠ 92) val →
  html_chars (u "<p style=" ++ [q0] ++ pre ++ u "content:" ++ sp ++ [q1]
                ++ val ++ [q2; q3] ++ u ">")
  = set_of_str val.
Proof.
  intros Hq Hpre Hsp Hval.
  apply Forall_cons in Hq as [Hq0 Hq]. apply Forall_cons in Hq as [Hq1 Hq].
  apply Forall_cons in Hq as [Hq2 Hq]. apply Forall_cons in Hq as [Hq3 _].
  assert (Hquote : ∀ q, q ∈ [34; 39] → q ≠ 61 ∧ q ≠ 62 ∧ q ≠ 92).
  { intros q Hin. repeat (apply elem_of_cons in Hin as [->|Hin]; [lia|]).
    by apply elem_of_nil in Hin. }
  pose proof (Hquote _ Hq0) as Hq0'. pose proof (Hquote _ Hq1) as Hq1'.
  pose proof (Hquote _ Hq2) as Hq2'. pose proof (Hquote _ Hq3) as Hq3'.
  assert (Hsp' : Forall (λ c, c ≠ 34 ∧ c ≠ 39 ∧ c ≠ 61 ∧ c ≠ 62 ∧ c ≠ 92) sp).
  { eapply Forall_impl; [exact Hsp|]. intros c Hc.
    apply is_space_not_mark in Hc. tauto. }
  change (u ">") with [62].
  change (u "content:") with [99; 111; 110; 116; 101; 110; 116; 58].
  set (tl := [q0] ++ pre ++ [99; 111; 110; 116; 101; 110; 116; 58] ++ sp
               ++ [q1] ++ val ++ [q2; q3]).
  assert (Htl : ∀ P : Z → Prop, P q0 → P q1 → P q2 → P q3 →
            Forall P [99; 111; 110; 116; 101; 110; 116; 58] →
            (∀ c, c ≠ 61 ∧ c ≠ 62 ∧ c ≠ 92 → P c) → Forall P tl).
  { intros P H0 H1 H2 H3 Hc HP. unfold tl.
    assert (Hw : ∀ Q (s : str),
              (∀ c, Q c → c ≠ 61 ∧ c ≠ 62 ∧ c ≠ 92) → Forall Q s → Forall P s).
    { intros Q s HQ Hs. eapply Forall_impl; [exact Hs|].
      intros c Hc'. by apply HP, HQ. }
    apply Forall_app. split; [by repeat constructor|].
    apply Forall_app. split; [eapply Hw; [|exact Hpre]; simpl; intros; tauto|].
    apply Forall_app. split; [exact Hc|].
    apply Forall_app. split; [eapply Hw; [|exact Hsp']; simpl; intros; tauto|].
    apply Forall_app. split; [by repeat constructor|].
    apply Forall_app. split; [eapply Hw; [|exact Hval]; simpl; intros; tauto|].
    by repeat constructor. }
  set (html := u "<p style=" ++ [q0] ++ pre
                 ++ [99; 111; 110; 116; 101; 110; 116; 58] ++ sp ++ [q1]
                 ++ val ++ [q2; q3] ++ [62]).
  assert (Hhtml : html = u "<p style=" ++ tl ++ [62]) by (unfold html, tl; reassoc).
  assert (H92 : 92 ∉ html).
  { rewrite Hhtml. apply Forall_not_elem.
    repeat (rewrite ?Forall_app, ?Forall_cons). rewrite Forall_nil.
    split; [vm_compute; repeat (apply Forall_cons; split; [lia|]);
             by apply Forall_nil|]. split; [|lia].
    apply Htl; simpl; [tauto|tauto|tauto|tauto| |intros; lia].
    repeat (apply Forall_cons; split; [lia|]). by apply Forall_nil. }
  unfold html_chars.
  rewrite nonrendering_removal_needs_backslash by done.
  (* the tag is dropped *)
  assert (Htext : re_sub pat_tag [] html NOFLAG = []).
  { replace html with ([] ++ [60] ++ (u "p style=" ++ tl) ++ [62] ++ [])
      by (rewrite Hhtml; change (u "<p style=") with (60 :: u "p style=");
          reassoc).
    rewrite tag_is_stripped; [done|by intros ?%elem_of_nil|done|].
    apply Forall_not_elem. apply Forall_app. split; [vm_compute; repeat (apply Forall_cons; split; [lia|]);
             by apply Forall_nil|].
    apply Htl; simpl; [tauto|tauto|tauto|tauto| |intros; lia].
    repeat (apply Forall_cons; split; [lia|]). by apply Forall_nil. }
  (* none of the five attributes is found *)
  assert (Hattrs : re_findall2 pat_attr html re_IGNORECASE = []).
  { unfold re_findall2. rewrite Hhtml, finditer_attr_style_prefix.
    rewrite (finditer_none _ _ (λ c, c ≠ 61)); [done| |apply match_attr_none].
    apply Forall_app. split; [|by repeat constructor].
    apply Htl; simpl; [tauto|tauto|tauto|tauto| |intros; lia].
    repeat (apply Forall_cons; split; [lia|]). by apply Forall_nil. }
  (* the declaration is found *)
  assert (Hstyle : re_findall1 pat_style_content html re_IGNORECASE = [val]).
  { unfold re_findall1.
    replace html
      with (u "<p " ++ (u "style=" ++ [q0] ++ pre
                          ++ [99; 111; 110; 116; 101; 110; 116; 58] ++ sp
                          ++ [q1] ++ val ++ [q2]) ++ [q3; 62])
      by (unfold html; change (u "<p style=") with (u "<p " ++ u "style=");
          reassoc).
    rewrite finditer_prefix by (done || (repeat constructor)).
    rewrite (finditer_hit_app _ _ _
               (u "style=" ++ [q0] ++ pre
                  ++ [99; 111; 110; 116; 101; 110; 116; 58] ++ sp ++ [q1]
                  ++ val ++ [q2])
               [q3; 62] [(1%nat, val)]).
    - rewrite (finditer_none _ _ (λ c, c ≠ 61));
        [done| |apply match_style_content_none].
      repeat (apply Forall_cons; split; [lia|]). by apply Forall_nil.
    - reflexivity.
    - done.
    - match goal with |- match_at _ _ ?s = _ =>
        replace s
          with (u "style=" ++ q0 :: pre ++ u "content:" ++ sp ++ q1 :: val
                  ++ q2 :: [q3; 62])
          by (change (u "content:") with [99; 111; 110; 116; 101; 110; 116; 58];
              reassoc)
      end.
      apply match_style_content; try done.
      + eapply Forall_impl; [exact Hpre|]. intros c Hc. simpl in Hc. tauto.
      + eapply Forall_impl; [exact Hval|]. intros c Hc. simpl in Hc. tauto. }
  rewrite Htext, Hattrs, Hstyle. simpl. by rewrite app_nil_r.
Qed.

(** * What a logging call adds *)

Section Blocked.
Context {R : Type}.

(** Literal text without the letter c cannot be matched across the point
    where a stretch free of opening parentheses meets the letter c: the
    rest of the pattern is still handed a text of the same shape. *)
Lemma lits_blocked (p : string) : ∀ xs rest caps (k : str → captures → option R),
  Forall (λ a, chr a ≠ 99) (list_ascii_of_string p) →
  Forall (λ c, c ≠ 40) xs →
  (∀ xs' caps', Forall (λ c, c ≠ 40) xs' → k (xs' ++ 99 :: rest) caps' = None) →
  rmatch NOFLAG (lits p) (xs ++ 99 :: rest) caps k = None.
Proof.
  induction p as [|a p IH]; intros xs rest caps k Hp Hxs Hk.
  - simpl. by apply Hk.
  - simpl in Hp. apply Forall_cons in Hp as [Ha Hp].
    change (lits (String a p)) with (RCat (RLit (chr a)) (lits p)).
    cbn [rmatch]. destruct Hxs as [|x xs Hx Hxs]; cbn [app].
    + unfold lit_match. cbn [IGNORECASE NOFLAG].
      by rewrite (proj2 (Z.eqb_neq 99 (chr a))).
    + destruct (lit_match _ _ _); [|done]. by apply IH.
Qed.
End Blocked.

(** No logging call begins inside a stretch without an opening
    parenthesis that is followed by the letter c. *)
Lemma match_console_blocked xs rest :
  xs ≠ [] → Forall (λ c, c ≠ 40) xs →
  match_at NOFLAG pat_console (xs ++ 99 :: rest) = None.
Proof.
  intros Hne Hxs. destruct Hxs as [|x xs Hx Hxs]; [done|].
  unfold match_at, pat_console, rseq. simpl foldr.
  change (lits "console.") with (RCat (RLit 99) (lits "onsole.")).
  cbn [rmatch app]. destruct (lit_match NOFLAG 99 x); [|done].
  apply lits_blocked; [repeat constructor; done|done|].
  intros xs1 caps1 Hxs1. cbn [rmatch ralt].
  assert (Hparen : ∀ xs' caps' (k : str → captures → option (str * captures)),
            Forall (λ c, c ≠ 40) xs' →
            rmatch NOFLAG (lits "(") (xs' ++ 99 :: rest) caps' k = None).
  { intros xs' caps' k Hxs'. destruct Hxs' as [|y xs' Hy Hxs']; simpl; [done|].
    change (chr "(") with 40. unfold lit_match. simpl.
    by rewrite (proj2 (Z.eqb_neq y 40)). }
  rewrite !lits_blocked; try done; try (repeat constructor; done);
    intros xs2 caps2 Hxs2; by apply Hparen.
Qed.

Lemma finditer_console_blocked xs rest :
  Forall (λ c, c ≠ 40) xs →
  finditer_from NOFLAG pat_console O (xs ++ 99 :: rest)
  = finditer_from NOFLAG pat_console O (99 :: rest).
Proof.
  induction 1 as [|x xs Hx Hxs IH]; [done|].
  pose proof (match_console_blocked (x :: xs) rest) as Hm.
  cbn [app] in *. cbn [finditer_from].
  rewrite Hm; [exact IH|done|by constructor].
Qed.

Lemma console_methods_eq :
  console_methods
  = [[108; 111; 103]; [119; 97; 114; 110]; [101; 114; 114; 111; 114];
     [105; 110; 102; 111]].
Proof. reflexivity. Qed.

(** A call of one of the four methods, up to the first closing
    parenthesis: the match takes all of it, with the method as group 1
    and everything between the parentheses as group 2. *)
Lemma match_console m args rest :
  m ∈ console_methods → args ≠ [] → Forall (λ c, c ≠ 41) args →
  match_at NOFLAG pat_console (u "console." ++ m ++ 40 :: args ++ 41 :: rest)
  = Some (rest, [(2%nat, args); (1%nat, m)]).
Proof.
  intros Hm Hne Hargs.
  assert (Hgreedy : ∀ res (k : str → option (str * captures)),
            k (41 :: rest) = Some res →
            rep_greedy NOFLAG (none_of ")") (args ++ 41 :: rest) 1 k = Some res).
  { intros res k Hk. apply rep_greedy_scan; [| | |done].
    - eapply Forall_impl; [exact Hargs|]. intros c Hc. simpl.
      change (chr ")") with 41. unfold lit_match. simpl.
      by rewrite (proj2 (Z.eqb_neq c 41)).
    - destruct args; [done|simpl; lia].
    - reflexivity. }
  assert (Hend : ∀ (k n : nat) (l : str),
            Some (rest, set_group 2
                    (take (length (args ++ 41 :: rest) - S (length rest))
                       (args ++ 41 :: rest))
                    (set_group 1 (take (k + n - n) l) []))
            = Some (rest, [(2%nat, args); (1%nat, take k l)])).
  { intros k n l. unfold set_group.
    change (S (length rest)) with (length (41 :: rest)).
    rewrite take_consumed. by replace (k + n - n)%nat with k by lia. }
  rewrite console_methods_eq in Hm. unfold match_at.
  repeat (apply elem_of_cons in Hm as [->|Hm];
    [simpl; erewrite Hgreedy; [|simpl; reflexivity];
     first [ exact (Hend 3%nat _ _) | exact (Hend 4%nat _ _)
           | exact (Hend 5%nat _ _) ]
    |]).
  by apply elem_of_nil in Hm.
Qed.

Lemma foldl_grows {A} (step : gset str → A → gset str) (l : list A) :
  (∀ chars a, chars ⊆ step chars a) → ∀ chars, chars ⊆ foldl step chars l.
Proof.
  intros Hstep. induction l as [|a l IH]; intros chars; simpl; [done|].
  etrans; [apply (Hstep chars a)|apply IH].
Qed.

Lemma findall_whole_literal q body :
  Forall (λ c, c ≠ q ∧ c ≠ 10) body →
  re_findall1 (pat_string q) (q :: body ++ [q]) NOFLAG = [body].
Proof.
  intros Hbody. unfold re_findall1.
  rewrite <- (app_nil_r (body ++ [q])).
  rewrite (finditer_hit _ _ q (body ++ [q]) [] [(1%nat, body)]); [done|].
  rewrite <- app_assoc. apply match_string; [done|].
  eapply Forall_impl; [exact Hbody|]. intros c [Hc1 Hc2]. split; [done|].
  simpl. by rewrite (proj2 (Z.eqb_neq c 10)).
Qed.

(** X21.  A string that is the argument of a logging call is collected
    whatever comes before and after the call, unpaired quotes included,
    as long as no opening parenthesis comes before it. *)
Theorem console_string_is_collected (m pre body post : str) (q : Z) :
  m ∈ console_methods → q ∈ [double_quote; single_quote] →
  40 ∉ pre → Forall (λ c, c ≠ q ∧ c ≠ 41 ∧ c ≠ 10) body →
  set_of_str body
  ⊆ js_chars (pre ++ u "console." ++ m ++ u "(" ++ [q] ++ body ++ [q]
                ++ u ")" ++ post).
Proof.
  intros Hm Hq Hpre Hbody.
  assert (Hq2 : q = 34 ∨ q = 39).
  { unfold double_quote, single_quote in Hq.
    repeat (apply elem_of_cons in Hq as [->|Hq]; [tauto|]).
    by apply elem_of_nil in Hq. }
  unfold js_chars.
  set (chars := foldl set_update _ (re_findall1 pat_jsx_text _ NOFLAG)).
  assert (Hfind : ∃ l,
            re_findall2 pat_console
              (pre ++ u "console." ++ m ++ u "(" ++ [q] ++ body ++ [q]
                 ++ u ")" ++ post) NOFLAG
            = (m, q :: body ++ [q]) :: l).
  { unfold re_findall2. eexists.
    change (u "console.") with (99 :: u "onsole.").
    cbn [app]. rewrite finditer_console_blocked by by apply not_elem_Forall.
    change (u "(") with [40]. change (u ")") with [41].
    rewrite (finditer_hit_app _ _ _
               (u "console." ++ m ++ 40 :: (q :: body ++ [q]) ++ [41]) post
               [(2%nat, q :: body ++ [q]); (1%nat, m)]).
    - simpl. reflexivity.
    - change (u "console.") with (99 :: u "onsole."). reassoc.
    - done.
    - match goal with |- match_at _ _ ?s = _ =>
        replace s
          with (u "console." ++ m ++ 40 :: (q :: body ++ [q]) ++ 41 :: post)
          by (change (u "console.") with (99 :: u "onsole."); reassoc)
      end.
      apply match_console; [done|done|].
      apply Forall_cons. split; [lia|]. apply Forall_app. split.
      + eapply Forall_impl; [exact Hbody|]. intros c Hc. simpl in Hc. tauto.
      + apply Forall_cons. split; [lia|]. by apply Forall_nil. }
  destruct Hfind as [l ->]. cbn [foldl].
  etrans; [|apply foldl_grows].
  - cbn [snd]. intros x Hx. apply elem_of_foldl_set_update. right.
    exists body. split; [|done]. apply elem_of_app.
    destruct Hq2 as [-> | ->].
    + left. rewrite findall_whole_literal; [by apply list_elem_of_singleton|].
      eapply Forall_impl; [exact Hbody|]. intros c Hc. simpl in Hc. tauto.
    + right. rewrite findall_whole_literal; [by apply list_elem_of_singleton|].
      eapply Forall_impl; [exact Hbody|]. intros c Hc. simpl in Hc. tauto.
  - intros chars' lm x Hx. apply elem_of_foldl_set_update. by left.
Qed.

(** * The claims on the small instance *)

#[local] Existing Instance Toy.lib.

Ltac decide_it := apply (bool_decide_unpack _); vm_compute; exact I.

(** C3, as the claim states it, fails.  On the small instance the save
    step runs out of room after four bytes: the run ends with exit status
    1, and the output path, which did not exist before, now holds the
    first four bytes of a font of twelve. *)
Lemma failed_save_leaves_partial_font :
  let args := parse_args (u "site") (u "font.ttf") None None in
  let res := main args Toy.world in
  exit_status res.2 = 1
  ∧ files Toy.world !! arg_output args = None
  ∧ files res.1 !! arg_output args = Some (Toy.font_file "abcd")
  ∧ files Toy.world !! arg_font args = Some (Toy.font_file "abcdefgh xyz").
Proof. vm_compute. repeat split. Qed.

(** C3, amended, on the small instance: the failed run above.  The scan
    returns, the font loads and is subset, and [save_font] raises. *)
Lemma failed_run_files_witness :
  let args := parse_args (u "site") (u "font.ttf") None None in
  let w := Toy.world in
  let res := main args w in
  let e := OSError (u "Output.ttf") in
  res = (res.1, inl e)
  ∧ exit_status res.2 = 1
  ∧ match (collect_chars_from_directory (arg_directory args) w).2 with
    | inl e0 => e = e0 ∧ files res.1 = files w ∧ calls res.1 = calls w
    | inr chars =>
      let U := unicode_set_of (add_kept_chars chars (arg_keep args)) in
      match TTFont (files w) (arg_font args) with
      | inl e0 => e = e0 ∧ files res.1 = files w
      | inr f0 =>
        match Subsetter_subset fixed_options U f0 with
        | (f1, Some e1) => e = e1 ∧ files res.1 = files w
        | (f1, None) =>
          match save_font f1 (arg_output args) fixed_options (files w) with
          | (f2, fs', Some e2) => e = e2 ∧ files res.1 = fs'
          | (f2, fs', None) => files res.1 = fs'
          end
        end
      end
    end.
Proof.
  intros args w res e.
  assert (H : main args w = (res.1, inl e)) by (vm_compute; reflexivity).
  split; [exact H|].
  exact (failed_run_files args w res.1 e H).
Defined.

(** C5, amended, on a function that returns a greeting: the braces and
    parentheses of the code around the literal add nothing, and the set
    returned is that of the literal's text. *)
Lemma js_template_text_only_witness :
  let pre := u "function greet(name) { return " in
  let post := u "; }" in
  let js_content :=
    pre ++ u "`" ++ template_body (u "Hello ") [(u "name", u "!")] ++ u "`"
      ++ post in
  (96 ∉ pre)
  ∧ (96 ∉ u "Hello ") ∧ opens_expr (u "Hello ") = false
  ∧ Forall (λ p : str * str,
              Forall (λ c, c ≠ 96 ∧ c ≠ 125 ∧ c ≠ 10) p.1
              ∧ (96 ∉ p.2) ∧ opens_expr p.2 = false) [(u "name", u "!")]
  ∧ js_content = u "function greet(name) { return `Hello ${name}!`; }"
  ∧ js_chars js_content
    = set_of_str (template_text (u "Hello ") [(u "name", u "!")])
      ∪ (template_chars post
         ∪ quoted_chars double_quote js_content
         ∪ quoted_chars single_quote js_content
         ∪ jsx_chars js_content ∪ console_chars js_content)
  ∧ js_chars js_content = set_of_str (u "Hello !").
Proof.
  intros pre post js_content.
  assert (H1 : 96 ∉ pre) by decide_it.
  assert (H2 : 96 ∉ u "Hello ") by decide_it.
  assert (H3 : Forall (λ p : str * str,
                         Forall (λ c, c ≠ 96 ∧ c ≠ 125 ∧ c ≠ 10) p.1
                         ∧ (96 ∉ p.2) ∧ opens_expr p.2 = false)
                 [(u "name", u "!")]) by decide_it.
  split; [exact H1|]. split; [exact H2|]. split; [reflexivity|].
  split; [exact H3|].
  split; [vm_compute; reflexivity|].
  split; [|decide_it].
  exact (js_template_text_only pre (u "Hello ") post [(u "name", u "!")]
           H1 H2 eq_refl H3).
Defined.

(** C8 on the small instance, scanned forwards and backwards. *)
Lemma scan_order_independent_witness :
  let chars := ⋃ (chars_of Toy.world <$> Toy.site_entries) in
  files Toy.world = files Toy.world_rev
  ∧ (rglob Toy.world (u "site")).1 ≡ₚ (rglob Toy.world_rev (u "site")).1
  ∧ (collect_chars_from_directory (u "site") Toy.world).2 = inr chars
  ∧ chars = ⋃ (chars_of Toy.world <$> (rglob Toy.world (u "site")).1)
  ∧ (collect_chars_from_directory (u "site") Toy.world_rev).2
    = match (rglob Toy.world_rev (u "site")).2 with
      | Some err => inl err
      | None => inr chars
      end.
Proof.
  intros chars.
  assert (Hp : (rglob Toy.world (u "site")).1
               ≡ₚ (rglob Toy.world_rev (u "site")).1).
  { change (rglob Toy.world (u "site")).1 with Toy.site_entries.
    change (rglob Toy.world_rev (u "site")).1 with (reverse Toy.site_entries).
    symmetry. apply reverse_Permutation. }
  assert (Hscan : (collect_chars_from_directory (u "site") Toy.world).2
                  = inr chars) by (vm_compute; reflexivity).
  split; [reflexivity|]. split; [exact Hp|]. split; [exact Hscan|].
  exact (scan_order_independent (u "site") Toy.world Toy.world_rev chars
           eq_refl Hp Hscan).
Defined.

(** C9, as the claim states it, fails.  On the small instance the font
    is loaded with twelve glyphs; after the run the only font object
    there is, the loaded one, has three. *)
Lemma subsetting_overwrites_loaded_font :
  let res := create_font_subset (u "font.ttf") (u "out.ttf")
               {[ u "a"; u "b" ]} Toy.world in
  res.2 = inr tt
  ∧ TTFont (files Toy.world) (u "font.ttf") = inr (u "abcdefgh xyz")
  ∧ fonts res.1 = {[ O := u "ab " ]}
  ∧ fonts res.1 !! O ≠ Some (u "abcdefgh xyz").
Proof.
  vm_compute. repeat split. intros H. discriminate H.
Qed.

(** C9, amended, on the small instance. *)
Lemma completed_run_updates_loaded_font_witness :
  let char_set : gset str := {[ u "a"; u "b" ]} in
  let res := create_font_subset (u "font.ttf") (u "out.ttf") char_set Toy.world in
  let a := fresh (dom (fonts Toy.world)) in
  let U := unicode_set_of char_set in
  res = (res.1, inr tt)
  ∧ ∃ f0 f1 f2,
      TTFont (files Toy.world) (u "font.ttf") = inr f0
      ∧ Subsetter_subset fixed_options U f0 = (f1, None)
      ∧ save_font f1 (u "out.ttf") fixed_options (files Toy.world)
        = (f2, files res.1, None)
      ∧ fonts res.1 = <[a := TTFont_close f2]> (fonts Toy.world)
      ∧ calls res.1 = calls Toy.world
                      ++ [CallTTFont (u "font.ttf");
                          CallSubset fixed_options U a;
                          CallSaveFont a (u "out.ttf") fixed_options;
                          CallClose a].
Proof.
  intros char_set res a U.
  assert (H : create_font_subset (u "font.ttf") (u "out.ttf") char_set Toy.world
              = (res.1, inr tt)) by (vm_compute; reflexivity).
  split; [exact H|].
  exact (completed_run_updates_loaded_font _ _ _ _ _ H).
Defined.




(** C6 on the small instance, for the empty character set. *)
Lemma subsetter_always_gets_whitespace_witness :
  let res := create_font_subset (u "font.ttf") (u "out.ttf") ∅ Toy.world in
  TTFont (files Toy.world) (u "font.ttf") = inr (u "abcdefgh xyz")
  ∧ unicode_set_of ∅ = basic_chars
  ∧ CallSubset fixed_options (unicode_set_of ∅) O ∈ calls res.1.
Proof.
  intros res.
  destruct (subsetter_always_gets_whitespace (u "font.ttf") (u "out.ttf")
              ∅ Toy.world) as (_ & _ & Hempty & _ & Hcall).
  split; [reflexivity|]. split; [exact Hempty|].
  exact (Hcall (u "abcdefgh xyz") eq_refl).
Defined.

(** C10 on the small instance, whose [Options()] has hinting on: the
    subsetter and [save_font] are both called, with hinting off. *)
Lemma rebuild_options_are_fixed_witness :
  let res := create_font_subset (u "font.ttf") (u "out.ttf")
               {[ u "a" ]} Toy.world in
  let U := unicode_set_of {[ u "a" ]} in
  TTFont (files Toy.world) (u "font.ttf") = inr (u "abcdefgh xyz")
  ∧ Subsetter_subset fixed_options U (u "abcdefgh xyz") = (u "a ", None)
  ∧ hinting Options_new = true ∧ hinting fixed_options = false
  ∧ ∃ new,
      calls res.1 = calls Toy.world ++ new
      ∧ CallSubset fixed_options U O ∈ new
      ∧ CallSaveFont O (u "out.ttf") fixed_options ∈ new.
Proof.
  intros res U.
  assert (H1 : TTFont (files Toy.world) (u "font.ttf") = inr (u "abcdefgh xyz"))
    by reflexivity.
  assert (H2 : Subsetter_subset fixed_options U (u "abcdefgh xyz")
               = (u "a ", None)) by (vm_compute; reflexivity).
  destruct (rebuild_options_are_fixed (u "font.ttf") (u "out.ttf")
              {[ u "a" ]} Toy.world)
    as ((_ & Hhint & _) & new & Hc & _ & Hsub & Hsave).
  split; [exact H1|]. split; [exact H2|]. split; [reflexivity|].
  split; [exact Hhint|].
  exists new. split; [exact Hc|].
  split; [exact (Hsub _ H1)|exact (Hsave _ _ H1 H2)].
Defined.

(** * The further properties on concrete inputs *)

(** X1 on the page [<p>ab</p>]. *)
Lemma html_chars_from_text_witness :
  [chr "a"] ∈ html_chars (u "<p>ab</p>")
  ∧ ∃ c, [chr "a"] = [c] ∧ (c ∈ u "<p>ab</p>" ∨ c = 32).
Proof.
  assert (H : [chr "a"] ∈ html_chars (u "<p>ab</p>")) by decide_it.
  split; [exact H|]. exact (html_chars_from_text _ _ H).
Defined.

(** X2 on the script [s = 'ab';]. *)
Lemma js_chars_from_text_witness :
  [chr "a"] ∈ js_chars (u "s = 'ab';")
  ∧ ∃ c, [chr "a"] = [c] ∧ c ∈ u "s = 'ab';".
Proof.
  assert (H : [chr "a"] ∈ js_chars (u "s = 'ab';")) by decide_it.
  split; [exact H|]. exact (js_chars_from_text _ _ H).
Defined.

(** X3 on a page with a script element. *)
Lemma nonrendering_removal_needs_backslash_witness :
  (92 ∉ u "<script>x</script><p>y</p>")
  ∧ re_sub pat_nonrendering [] (u "<script>x</script><p>y</p>") re_IGNORECASE
    = u "<script>x</script><p>y</p>".
Proof.
  assert (H : 92 ∉ u "<script>x</script><p>y</p>") by decide_it.
  split; [exact H|]. exact (nonrendering_removal_needs_backslash _ H).
Defined.

(** X4 on a page with two elements. *)
Lemma html_chars_without_attributes_witness :
  (92 ∉ u "<h1>Hi</h1><p>you</p>") ∧ (61 ∉ u "<h1>Hi</h1><p>you</p>")
  ∧ html_chars (u "<h1>Hi</h1><p>you</p>")
    = set_of_str (re_sub pat_tag [] (u "<h1>Hi</h1><p>you</p>") NOFLAG).
Proof.
  assert (H1 : 92 ∉ u "<h1>Hi</h1><p>you</p>") by decide_it.
  assert (H2 : 61 ∉ u "<h1>Hi</h1><p>you</p>") by decide_it.
  split; [exact H1|]. split; [exact H2|].
  exact (html_chars_without_attributes _ H1 H2).
Defined.

(** X5 on [a<b class=c>d]. *)
Lemma tag_is_stripped_witness :
  (60 ∉ u "a") ∧ u "b class=c" ≠ [] ∧ (62 ∉ u "b class=c")
  ∧ re_sub pat_tag [] (u "a" ++ [60] ++ u "b class=c" ++ [62] ++ u "d") NOFLAG
    = u "a" ++ re_sub pat_tag [] (u "d") NOFLAG.
Proof.
  assert (H1 : 60 ∉ u "a") by decide_it.
  assert (H2 : u "b class=c" ≠ []) by decide_it.
  assert (H3 : 62 ∉ u "b class=c") by decide_it.
  split; [exact H1|]. split; [exact H2|]. split; [exact H3|].
  exact (tag_is_stripped _ _ (u "d") H1 H2 H3).
Defined.

(** X6 on a comparison, which opens a tag and never closes it. *)
Lemma text_without_tags_is_kept_witness :
  ((60 ∉ u "if a < b") ∨ (62 ∉ u "if a < b"))
  ∧ re_sub pat_tag [] (u "if a < b") NOFLAG = u "if a < b".
Proof.
  assert (H : 60 ∉ u "if a < b" ∨ 62 ∉ u "if a < b") by (right; decide_it).
  split; [exact H|]. exact (text_without_tags_is_kept _ H).
Defined.

(** X7 on a style element. *)
Lemma element_text_is_collected_witness :
  u "style" ≠ []
  ∧ Forall (λ c, c ≠ 62 ∧ c ≠ 61 ∧ c ≠ 92) (u "style")
  ∧ Forall (λ c, c ≠ 60 ∧ c ≠ 61 ∧ c ≠ 92) (u "p{color:red}")
  ∧ html_chars (u "<" ++ u "style" ++ u ">" ++ u "p{color:red}"
                ++ u "</" ++ u "style" ++ u ">")
    = set_of_str (u "p{color:red}").
Proof.
  assert (H1 : u "style" ≠ []) by decide_it.
  assert (H2 : Forall (λ c, c ≠ 62 ∧ c ≠ 61 ∧ c ≠ 92) (u "style")) by decide_it.
  assert (H3 : Forall (λ c, c ≠ 60 ∧ c ≠ 61 ∧ c ≠ 92) (u "p{color:red}"))
    by decide_it.
  split; [exact H1|]. split; [exact H2|]. split; [exact H3|].
  exact (element_text_is_collected _ _ H1 H2 H3).
Defined.

(** X8 on an image tag whose title is opened by a double quote and
    closed by a single one. *)
Lemma attribute_value_is_collected_witness :
  u "title" ∈ attr_names ∧ 34 ∈ [34; 39] ∧ 39 ∈ [34; 39] ∧ u "a cat" ≠ []
  ∧ Forall (λ c, c ≠ 34 ∧ c ≠ 39 ∧ c ≠ 61 ∧ c ≠ 62 ∧ c ≠ 92) (u "a cat")
  ∧ html_chars (u "<img " ++ u "title" ++ [61; 34] ++ u "a cat" ++ [39; 62])
    = set_of_str (32 :: u "a cat").
Proof.
  assert (H1 : u "title" ∈ attr_names) by decide_it.
  assert (H2 : 34 ∈ [34; 39]) by decide_it.
  assert (H3 : 39 ∈ [34; 39]) by decide_it.
  assert (H4 : u "a cat" ≠ []) by decide_it.
  assert (H5 : Forall (λ c, c ≠ 34 ∧ c ≠ 39 ∧ c ≠ 61 ∧ c ≠ 62 ∧ c ≠ 92)
                 (u "a cat")) by decide_it.
  split; [exact H1|]. split; [exact H2|]. split; [exact H3|].
  split; [exact H4|]. split; [exact H5|].
  exact (attribute_value_is_collected _ _ _ _ H1 H2 H3 H4 H5).
Defined.

(** X9 on a single-quoted literal of two lines. *)
Lemma js_string_literal_is_collected_witness :
  single_quote ∈ [double_quote; single_quote; backtick]
  ∧ plain (u "t = ") = true ∧ plain [97; 10; 98] = true ∧ plain (u ";") = true
  ∧ js_chars (u "t = " ++ [single_quote] ++ [97; 10; 98] ++ [single_quote]
              ++ u ";")
    = set_of_str [97; 10; 98].
Proof.
  assert (H1 : single_quote ∈ [double_quote; single_quote; backtick])
    by decide_it.
  split; [exact H1|]. do 3 (split; [reflexivity|]).
  exact (js_string_literal_is_collected single_quote (u "t = ") [97; 10; 98]
           (u ";") H1 eq_refl eq_refl eq_refl).
Defined.

(** X10 on [<b>bold</b>]. *)
Lemma jsx_text_is_collected_witness :
  Forall (λ c, c ≠ 34 ∧ c ≠ 39 ∧ c ≠ 96 ∧ c ≠ 40 ∧ c ≠ 62 ∧ c ≠ 125) (u "<b")
  ∧ u "bold" ≠ []
  ∧ Forall (λ c, c ≠ 34 ∧ c ≠ 39 ∧ c ≠ 96 ∧ c ≠ 40 ∧ c ≠ 60 ∧ c ≠ 123 ∧ c ≠ 9)
      (u "bold")
  ∧ Forall (λ c, c ≠ 34 ∧ c ≠ 39 ∧ c ≠ 96 ∧ c ≠ 40 ∧ c ≠ 60 ∧ c ≠ 123) (u "/b>")
  ∧ js_chars (u "<b" ++ u ">" ++ u "bold" ++ u "<" ++ u "/b>")
    = set_of_str (u "bold").
Proof.
  assert (H1 : Forall (λ c, c ≠ 34 ∧ c ≠ 39 ∧ c ≠ 96 ∧ c ≠ 40 ∧ c ≠ 62 ∧ c ≠ 125)
                 (u "<b")) by decide_it.
  assert (H2 : u "bold" ≠ []) by decide_it.
  assert (H3 : Forall (λ c, c ≠ 34 ∧ c ≠ 39 ∧ c ≠ 96 ∧ c ≠ 40 ∧ c ≠ 60
                            ∧ c ≠ 123 ∧ c ≠ 9) (u "bold")) by decide_it.
  assert (H4 : Forall (λ c, c ≠ 34 ∧ c ≠ 39 ∧ c ≠ 96 ∧ c ≠ 40 ∧ c ≠ 60 ∧ c ≠ 123)
                 (u "/b>")) by decide_it.
  split; [exact H1|]. split; [exact H2|]. split; [exact H3|]. split; [exact H4|].
  exact (jsx_text_is_collected _ _ _ H1 H2 H3 H4).
Defined.

(** X11 on a set with one element that is not a single character. *)
Lemma unicode_set_loop_witness :
  let char_set : gset str := {[ u "ab"; u "c" ]} in
  let res := for_each add_ord ∅ (elements char_set) Toy.world in
  (WARNING, MsgSkipChar (u "ab") TypeError) ∈ log res.1
  ∧ ∃ U, res.2 = inr U ∧ ∀ n, n ∈ U ↔ [n] ∈ char_set.
Proof.
  intros char_set res.
  destruct (unicode_set_loop char_set Toy.world) as (U & HU & Hmem & Hwarn & _).
  split; [|exists U; split; [exact HU|exact Hmem]].
  apply Hwarn; [decide_it|vm_compute; discriminate].
Defined.

(** X12 on the small instance, where the save step fails. *)
Lemma close_and_save_only_after_success_witness :
  let res := create_font_subset (u "font.ttf") (u "out.ttf")
               (set_of_str (u "abcde")) Toy.world in
  res.2 = inl (OSError (u "out.ttf"))
  ∧ ∃ new, calls res.1 = calls Toy.world ++ new
           ∧ (CallClose O ∈ new ↔ res.2 = inr tt).
Proof.
  intros res. split; [vm_compute; reflexivity|].
  destruct (close_and_save_only_after_success (u "font.ttf") (u "out.ttf")
              (set_of_str (u "abcde")) Toy.world) as (new & Hc & Hclose & _).
  exists new. split; [exact Hc|exact Hclose].
Defined.

(** X13 on the small instance. *)
Lemma run_subsets_to_collected_and_kept_witness :
  let args := parse_args (u "site") (u "font.ttf") None None in
  let chars := ⋃ (chars_of Toy.world <$> Toy.site_entries) in
  (collect_chars_from_directory (arg_directory args) Toy.world).2 = inr chars
  ∧ TTFont (files Toy.world) (arg_font args) = inr (u "abcdefgh xyz")
  ∧ chars = ⋃ (chars_of Toy.world <$> (rglob Toy.world (arg_directory args)).1)
  ∧ ∃ U a,
      CallSubset fixed_options U a ∈ calls (main args Toy.world).1
      ∧ ∀ n, n ∈ U ↔
          [n] ∈ chars
          ∨ n ∈ digits ++ ascii_letters ++ punctuation
          ∨ n ∈ arg_keep args
          ∨ n ∈ [32; 10; 9; 13].
Proof.
  intros args chars.
  assert (H1 : (collect_chars_from_directory (arg_directory args) Toy.world).2
               = inr chars) by (vm_compute; reflexivity).
  assert (H2 : TTFont (files Toy.world) (arg_font args) = inr (u "abcdefgh xyz"))
    by reflexivity.
  split; [exact H1|]. split; [exact H2|].
  exact (run_subsets_to_collected_and_kept args Toy.world _ chars H1 H2).
Defined.

(** X14 on the small instance: the scan returns, and the letter a of its
    result is in the text of a file that was read. *)
Lemma collected_chars_come_from_files_witness :
  let chars := ⋃ (chars_of Toy.world <$> Toy.site_entries) in
  (collect_chars_from_directory (u "site") Toy.world).2 = inr chars
  ∧ [chr "a"] ∈ chars
  ∧ ∃ entry text c,
      entry ∈ (rglob Toy.world (u "site")).1 ∧ entry_is_file entry = inr true
      ∧ read_decode (files Toy.world) (entry_path entry) = inr text
      ∧ [chr "a"] = [c] ∧ (c ∈ text ∨ c = 32).
Proof.
  intros chars.
  assert (H1 : (collect_chars_from_directory (u "site") Toy.world).2 = inr chars)
    by (vm_compute; reflexivity).
  assert (H2 : [chr "a"] ∈ chars) by decide_it.
  split; [exact H1|]. split; [exact H2|].
  exact (collected_chars_come_from_files (u "site") Toy.world chars _ H1 H2).
Defined.

(** X15 on the small instance, with the font written over itself. *)
Lemma same_path_reports_equal_sizes_witness :
  let args := parse_args (u "site") (u "small.ttf") (Some (u "small.ttf")) None in
  let res := main args toy_small_world in
  arg_output args = arg_font args
  ∧ res = (res.1, inr tt)
  ∧ ∃ data,
      files res.1 !! arg_font args = Some data
      ∧ last (log res.1)
        = Some (INFO, MsgReduced (Z.of_nat (length data)) (Z.of_nat (length data))).
Proof.
  intros args res.
  assert (H1 : arg_output args = arg_font args) by reflexivity.
  assert (H2 : main args toy_small_world = (res.1, inr tt))
    by (vm_compute; reflexivity).
  split; [exact H1|]. split; [exact H2|].
  exact (same_path_reports_equal_sizes args toy_small_world res.1 H1 H2).
Defined.

(** X16 on a page whose extension is in capitals. *)
Lemma html_file_is_scanned_witness :
  let e := {| entry_path := u "a/B.HTML"; entry_is_file := inr true |} in
  let w := mkWorld {[ u "a/B.HTML" := Toy.font_file "<p>hi</p>" ]}
             (λ _, ([e], None)) ∅ [] [] in
  entry_path e = u "a" ++ [47] ++ u "B" ++ [46] ++ u "HTML"
  ∧ lower (u "HTML") = u "html"
  ∧ read_decode (files w) (entry_path e) = inr (u "<p>hi</p>")
  ∧ scan_entry (∅, O) e w = (w, inr (∅ ∪ html_chars (u "<p>hi</p>"), 1%nat)).
Proof.
  intros e w.
  split; [reflexivity|]. split; [reflexivity|]. split; [reflexivity|].
  apply (html_file_is_scanned (∅, O) e w (u "a") (u "B") (u "HTML"));
    try reflexivity; decide_it.
Defined.

(** X17 on a JSON file whose extension is in mixed case. *)
Lemma script_file_is_scanned_witness :
  let e := {| entry_path := u "a/c.Json"; entry_is_file := inr true |} in
  let w := mkWorld {[ u "a/c.Json" := Toy.font_file "['v']" ]}
             (λ _, ([e], None)) ∅ [] [] in
  entry_path e = u "a" ++ [47] ++ u "c" ++ [46] ++ u "Json"
  ∧ lower (u "Json") ∈ [u "js"; u "jsx"; u "ts"; u "tsx"; u "json"]
  ∧ read_decode (files w) (entry_path e) = inr (u "['v']")
  ∧ scan_entry (∅, O) e w = (w, inr (∅ ∪ js_chars (u "['v']"), 1%nat)).
Proof.
  intros e w.
  assert (H : lower (u "Json") ∈ [u "js"; u "jsx"; u "ts"; u "tsx"; u "json"])
    by decide_it.
  split; [reflexivity|]. split; [exact H|]. split; [reflexivity|].
  apply (script_file_is_scanned (∅, O) e w (u "a") (u "c") (u "Json"));
    try reflexivity; try exact H; decide_it.
Defined.

(** X18 on a file named [.json]. *)
Lemma dotfile_is_not_scanned_witness :
  let e := {| entry_path := u "site/.json"; entry_is_file := inr true |} in
  entry_is_file e = inr true
  ∧ entry_path e = u "site" ++ [47; 46] ++ u "json"
  ∧ (47 ∉ u "json") ∧ (46 ∉ u "json")
  ∧ scan_entry (∅, O) e Toy.world = (Toy.world, inr (∅, O)).
Proof.
  intros e.
  assert (H1 : 47 ∉ u "json") by decide_it.
  assert (H2 : 46 ∉ u "json") by decide_it.
  split; [reflexivity|]. split; [reflexivity|].
  split; [exact H1|]. split; [exact H2|].
  exact (dotfile_is_not_scanned (∅, O) e Toy.world (u "site") (u "json") true
           eq_refl eq_refl H1 H2).
Defined.

(** X19 on a file of two lines that end in CR LF and in CR. *)
Lemma read_text_has_no_carriage_return_witness :
  let fs : gmap str bytes := {[ u "f.js" := [x61; x0d; x0a; x62; x0d] ]} in
  read_decode fs (u "f.js") = inr [97; 10; 98; 10]
  ∧ (13 ∉ [97; 10; 98; 10]).
Proof.
  intros fs.
  assert (H : read_decode fs (u "f.js") = inr [97; 10; 98; 10])
    by (vm_compute; reflexivity).
  split; [exact H|]. exact (read_text_has_no_carriage_return fs _ _ H).
Defined.

(** X20 on a paragraph whose inline style sets a colour and then
    declares an arrow as its content. *)
Lemma style_content_is_collected_witness :
  Forall (λ q, q ∈ [34; 39]) [34; 39; 39; 34]
  ∧ Forall (λ c, c ≠ 34 ∧ c ≠ 39 ∧ c ≠ 61 ∧ c ≠ 62 ∧ c ≠ 92) (u "color:red;")
  ∧ Forall (λ c, is_space c = true) (u " ")
  ∧ Forall (λ c, c ≠ 34 ∧ c ≠ 39 ∧ c ≠ 10 ∧ c ≠ 61 ∧ c ≠ 62 ∧ c ≠ 92) (u "→ x")
  ∧ html_chars (u "<p style=" ++ [34] ++ u "color:red;" ++ u "content:"
                  ++ u " " ++ [39] ++ u "→ x" ++ [39; 34] ++ u ">")
    = set_of_str (u "→ x").
Proof.
  assert (H1 : Forall (λ q, q ∈ [34; 39]) [34; 39; 39; 34]) by decide_it.
  assert (H2 : Forall (λ c, c ≠ 34 ∧ c ≠ 39 ∧ c ≠ 61 ∧ c ≠ 62 ∧ c ≠ 92)
                 (u "color:red;")) by decide_it.
  assert (H3 : Forall (λ c, is_space c = true) (u " ")) by decide_it.
  assert (H4 : Forall (λ c, c ≠ 34 ∧ c ≠ 39 ∧ c ≠ 10 ∧ c ≠ 61 ∧ c ≠ 62 ∧ c ≠ 92)
                 (u "→ x")) by decide_it.
  split; [exact H1|]. split; [exact H2|]. split; [exact H3|]. split; [exact H4|].
  exact (style_content_is_collected (u "color:red;") (u " ") (u "→ x")
           34 39 39 34 H1 H2 H3 H4).
Defined.

(** X21 on a logging call that follows a comment with an apostrophe in
    it, which throws the pairing of the single quotes off. *)
Lemma console_string_is_collected_witness :
  u "log" ∈ console_methods ∧ single_quote ∈ [double_quote; single_quote]
  ∧ (40 ∉ u "// don't " ++ [10])
  ∧ Forall (λ c, c ≠ single_quote ∧ c ≠ 41 ∧ c ≠ 10) (u "hi")
  ∧ set_of_str (u "hi")
    ⊆ js_chars ((u "// don't " ++ [10]) ++ u "console." ++ u "log" ++ u "("
                  ++ [single_quote] ++ u "hi" ++ [single_quote] ++ u ")"
                  ++ u ";").
Proof.
  assert (H1 : u "log" ∈ console_methods) by decide_it.
  assert (H2 : single_quote ∈ [double_quote; single_quote]) by decide_it.
  assert (H3 : (40 ∉ u "// don't " ++ [10])) by decide_it.
  assert (H4 : Forall (λ c, c ≠ single_quote ∧ c ≠ 41 ∧ c ≠ 10) (u "hi"))
    by decide_it.
  split; [exact H1|]. split; [exact H2|]. split; [exact H3|]. split; [exact H4|].
  exact (console_string_is_collected (u "log") (u "// don't " ++ [10]) (u "hi")
           (u ";") single_quote H1 H2 H3 H4).
Defined.
